(** * Camp Planner 2: the schedule document model of [src/App.jsx]

    A shallow embedding of the data-handling code of the planner: the
    list-management dialog, the cell editor, the grid and summary readers,
    the colour lookup and schedule creation.  JavaScript objects used as
    maps are [gmap string _], arrays are lists, [undefined] is [None]. *)

From Stdlib Require Import Ascii.
From stdpp Require Import gmap strings list sorting pretty.

(** ** The JavaScript runtime functions the component code calls *)

Module JS.

(** A string is a sequence of code units; one [ascii] stands for one code
    unit in the range 0..255. *)

(** White space and line terminators of [String.prototype.trim] in that
    range: TAB, LF, VT, FF, CR, SP and NBSP. *)
Definition isWhiteSpace (c : ascii) : bool :=
  match c with
  | "009" | "010" | "011" | "012" | "013" | " " | "160" => true
  | _ => false
  end%char.

Fixpoint trimStart (s : string) : string :=
  match s with
  | EmptyString => EmptyString
  | String c s' => if isWhiteSpace c then trimStart s' else s
  end.

Definition trimEnd (s : string) : string :=
  String.rev (trimStart (String.rev s)).

(** [s.trim()] *)
Definition trim (s : string) : string := trimEnd (trimStart s).

(** Truthiness of a string value: every string but the empty one. *)
Definition truthy (s : string) : bool := bool_decide (s ≠ EmptyString).

(** [s.toUpperCase()] on the letters a..z; the other code units a base-36
    numeral can hold (digits and the point) are left as they are. *)
Definition toUpperCase_unit (c : ascii) : ascii :=
  let n := nat_of_ascii c in
  if (97 <=? n)%nat && (n <=? 122)%nat then ascii_of_nat (n - 32) else c.

Fixpoint toUpperCase (s : string) : string :=
  match s with
  | EmptyString => EmptyString
  | String c s' => String (toUpperCase_unit c) (toUpperCase s')
  end.

(** [s.substring(from, to)]: the arguments are swapped when out of order
    and the result stops at the end of [s]. *)
Definition substring (from to : nat) (s : string) : string :=
  String.substring (from `min` to) ((from `max` to) - (from `min` to)) s.

(** Digits of [Number.prototype.toString(36)]. *)
Definition digit36 (d : nat) : ascii :=
  default "0"%char
    (String.get d "0123456789abcdefghijklmnopqrstuvwxyz").

Fixpoint digits36 (ds : list nat) : string :=
  match ds with
  | [] => EmptyString
  | d :: ds' => String (digit36 d) (digits36 ds')
  end.

(** [x.toString(36)] for a number [0 <= x < 1], given by the base-36
    digits of its fraction as the engine prints them: none for [0], and
    otherwise as many as identify the double. *)
Definition fractionToString36 (ds : list nat) : string :=
  match ds with
  | [] => "0"
  | _ => "0." +:+ digits36 ds
  end.

(** A non-negative integer inside a template literal: its decimal
    numeral. *)
Definition numberToString (n : nat) : string := pretty n.

(** [l.includes(x)] *)
Definition includes (l : list string) (x : string) : bool :=
  bool_decide (x ∈ l).

(** [l.indexOf(x)], [-1] when absent. *)
Fixpoint indexOf (l : list string) (x : string) : Z :=
  match l with
  | [] => -1
  | y :: l' =>
      if decide (y = x) then 0
      else let r := indexOf l' x in
           if decide (r < 0)%Z then -1 else (r + 1)%Z
  end.

(** [l[i]] for an integer [i]: [undefined] outside [0 .. length-1]. *)
Definition at_index {A} (l : list A) (i : Z) : option A :=
  if decide (0 ≤ i)%Z then l !! Z.to_nat i else None.

(** [a % b] keeps the sign of [a]. *)
Definition remainder (a b : Z) : Z := Z.rem a b.

(** [Array.prototype.sort(cmp)] is a stable sort; for a comparator that
    orders its arguments consistently the result is the one stable sorted
    rearrangement, computed here by insertion from the right. *)
Fixpoint insert (cmp : string → string → Z) (x : string)
    (l : list string) : list string :=
  match l with
  | [] => [x]
  | y :: l' =>
      if decide (cmp x y ≤ 0)%Z then x :: y :: l'
      else y :: insert cmp x l'
  end.

Definition sort (cmp : string → string → Z) (l : list string)
    : list string :=
  foldr (insert cmp) [] l.

(** A [Set] of strings, kept as the list of its members in insertion
    order (the order [Array.from] reads them back). *)
Definition Set_has (s : list string) (x : string) : bool :=
  bool_decide (x ∈ s).

Definition Set_add (x : string) (s : list string) : list string :=
  if Set_has s x then s else s ++ [x].

Definition Set_delete (x : string) (s : list string) : list string :=
  filter (λ y, y ≠ x) s.

(** [new Set(iterable)] *)
Definition Set_new (l : list string) : list string :=
  foldl (λ s x, Set_add x s) [] l.

Definition Array_from (s : list string) : list string := s.

(** Comparison by code units, a comparator to run the model with. *)
Definition codeUnitCompare (a b : string) : Z :=
  match String.compare a b with
  | Lt => -1
  | Eq => 0
  | Gt => 1
  end%Z.

End JS.

(** What the code relies on when it sorts with [localeCompare]: the sign of
    the result flips with the arguments, and "not after" is transitive. *)
Class ConsistentComparator (cmp : string → string → Z) : Prop := {
  cmp_flip : ∀ a b, (cmp a b < 0 ↔ 0 < cmp b a)%Z;
  cmp_trans : ∀ a b c, (cmp a b ≤ 0 → cmp b c ≤ 0 → cmp a c ≤ 0)%Z
}.

(** The order a comparator induces. *)
Definition notAfter (cmp : string → string → Z) (a b : string) : Prop :=
  (cmp a b ≤ 0)%Z.

(** ** Documents *)

(** A document of the "schedules" collection. *)
Record ScheduleDocument := mkSchedule {
  kidName : string;
  ownerId : string;
  collaborators : list string;
  camps : list string;
  allKids : list string;
  schedule : gmap string (list string);
  startDate : string;
  weekCount : nat
}.

(** A document of the "users" collection. *)
Record UserDocument := mkUser {
  email : string;
  kids : list string;
  schedules : list string
}.

(** [updateDoc(ref, { camps: l })] and its siblings: one top-level field is
    replaced, the others are kept. *)
Definition set_camps (l : list string) (d : ScheduleDocument) :=
  mkSchedule (kidName d) (ownerId d) (collaborators d) l (allKids d)
    (schedule d) (startDate d) (weekCount d).

Definition set_allKids (l : list string) (d : ScheduleDocument) :=
  mkSchedule (kidName d) (ownerId d) (collaborators d) (camps d) l
    (schedule d) (startDate d) (weekCount d).

Definition set_schedule (m : gmap string (list string))
    (d : ScheduleDocument) :=
  mkSchedule (kidName d) (ownerId d) (collaborators d) (camps d) (allKids d)
    m (startDate d) (weekCount d).

(** The two list fields [handleUpdateList] is called with. *)
Inductive ListName := camps_list | allKids_list.

Definition list_field (n : ListName) (d : ScheduleDocument) : list string :=
  match n with camps_list => camps d | allKids_list => allKids d end.

(** The selected cell: both indices are [null] until a cell is opened. *)
Record Cell := mkCell {
  campIndex : option nat;
  weekIndex : option nat
}.

(** An index inside a template literal; [null] prints as "null". *)
Definition indexToString (i : option nat) : string :=
  match i with
  | Some n => JS.numberToString n
  | None => "null"
  end.

(** [`${campIndex}-${weekIndex}`] *)
Definition cellKey (c w : option nat) : string :=
  indexToString c +:+ "-" +:+ indexToString w.

Definition key (c w : nat) : string := cellKey (Some c) (Some w).

(** [schedule[key] || []] *)
Definition attendeesAt (m : gmap string (list string)) (k : string)
    : list string :=
  default [] (m !! k).

(** The assignment map's [get(c, w)] as every reader computes it. *)
Definition get (m : gmap string (list string)) (c w : nat) : list string :=
  attendeesAt m (key c w).

(** ** The component code *)

(** [ScheduleGrid.kidColors] *)
Definition kidColors : list string :=
  [ "bg-blue-200 text-blue-800"; "bg-green-200 text-green-800";
    "bg-yellow-200 text-yellow-800"; "bg-purple-200 text-purple-800";
    "bg-pink-200 text-pink-800"; "bg-indigo-200 text-indigo-800";
    "bg-red-200 text-red-800"; "bg-teal-200 text-teal-800" ].

(** State of [ManagementModal]: the list being edited and the input box. *)
Record ManagementModal := mkModal {
  currentItems : list string;
  newItem : string
}.

(** What the user does in the dialog before saving. *)
Inductive ModalAction :=
  | TypeItem (text : string)
  | AddItem
  | RemoveItem (itemToRemove : string).

(** State of [OnboardingScreen]. *)
Record OnboardingScreen := mkOnboarding {
  kidNameInput : string;
  rosterKids : list string
}.

Inductive OnboardingAction :=
  | TypeKid (text : string)
  | AddKid
  | RemoveKid (nameToRemove : string).

(** One week of [PrintableSummary]. *)
Record WeekSummary := mkWeek {
  kidCamp : string;
  friends : list string
}.

(** One cell of [ScheduleGrid]: the name chips with their colour classes,
    and whether the "plus" placeholder is shown. *)
Record GridCell := mkGridCell {
  chips : list (string * option string);
  showPlus : bool
}.

(** Props of [EditScheduleModal]. *)
Record ModalProps := mkProps {
  isOpen : bool;
  modalCell : Cell
}.

(** What [EditScheduleModal] shows when it opens: the camp in the heading,
    the initial selection and one checkbox per kid. *)
Record EditView := mkEditView {
  heading : option string;
  selectedKids : list string;
  checkboxes : list (string * bool)
}.

(** The "schedules" and "users" collections. *)
Record Store := mkStore {
  scheduleDocs : gmap string ScheduleDocument;
  userDocs : gmap string UserDocument
}.

(** Firestore's [arrayUnion]. *)
Definition arrayUnion (l : list string) (x : string) : list string :=
  if JS.includes l x then l else l ++ [x].

Section Planner.

(** [String.prototype.localeCompare] of the engine the page runs in. *)
Variable localeCompare : string → string → Z.

(** *** ScheduleDetailView *)

(** [handleUpdateList(listName, newList)]: the list is sorted and written
    to its field; no other field is part of the update. *)
Definition handleUpdateList (listName : ListName) (newList : list string)
    (d : ScheduleDocument) : ScheduleDocument :=
  let sortedList := JS.sort localeCompare newList in
  match listName with
  | camps_list => set_camps sortedList d
  | allKids_list => set_allKids sortedList d
  end.

(** [handleScheduleChange(updatedAttendees)] for the selected cell, on the
    document the view holds: nothing is written while an index is
    [null]. *)
Definition handleScheduleChange (currentCell : Cell)
    (updatedAttendees : list string) (scheduleData : ScheduleDocument)
    : ScheduleDocument :=
  match campIndex currentCell, weekIndex currentCell with
  | Some _, Some _ =>
      let k := cellKey (campIndex currentCell) (weekIndex currentCell) in
      let newSchedule := <[k := updatedAttendees]> (schedule scheduleData) in
      set_schedule newSchedule scheduleData
  | _, _ => scheduleData
  end.

(** *** ManagementModal *)

(** The effect run when the dialog opens. *)
Definition openModal (items : list string) : ManagementModal :=
  mkModal (JS.sort localeCompare items) "".

Definition handleAddItem (st : ManagementModal) : ManagementModal :=
  if JS.truthy (JS.trim (newItem st))
     && negb (JS.includes (currentItems st) (JS.trim (newItem st)))
  then mkModal
         (JS.sort localeCompare (currentItems st ++ [JS.trim (newItem st)]))
         ""
  else st.

Definition handleRemoveItem (itemToRemove : string) (st : ManagementModal)
    : ManagementModal :=
  mkModal (filter (λ item, item ≠ itemToRemove) (currentItems st))
    (newItem st).

Definition modalStep (st : ManagementModal) (a : ModalAction)
    : ManagementModal :=
  match a with
  | TypeItem text => mkModal (currentItems st) text
  | AddItem => handleAddItem st
  | RemoveItem itemToRemove => handleRemoveItem itemToRemove st
  end.

(** [handleSave]: [onSave(currentItems)], which is [handleUpdateList]. *)
Definition handleSave (listName : ListName) (st : ManagementModal)
    (d : ScheduleDocument) : ScheduleDocument :=
  handleUpdateList listName (currentItems st) d.

(** A whole visit to the dialog: open it on the stored list, act, save. *)
Definition manageList (listName : ListName) (actions : list ModalAction)
    (d : ScheduleDocument) : ScheduleDocument :=
  handleSave listName
    (foldl modalStep (openModal (list_field listName d)) actions) d.

(** Removing the camp shown at position [i] of the dialog. *)
Definition removeCampAt (i : nat) (d : ScheduleDocument)
    : ScheduleDocument :=
  match JS.sort localeCompare (camps d) !! i with
  | Some camp => manageList camps_list [RemoveItem camp] d
  | None => d
  end.

(** Removing a kid by name. *)
Definition removeKid (kid : string) (d : ScheduleDocument)
    : ScheduleDocument :=
  manageList allKids_list [RemoveItem kid] d.

(** Adding a name through the dialog. *)
Definition addKid (text : string) (d : ScheduleDocument)
    : ScheduleDocument :=
  manageList allKids_list [TypeItem text; AddItem] d.

(** *** OnboardingScreen *)

Definition handleAddKid (st : OnboardingScreen) : OnboardingScreen :=
  if JS.truthy (JS.trim (kidNameInput st))
     && negb (JS.includes (rosterKids st) (JS.trim (kidNameInput st)))
  then mkOnboarding ""
         (JS.sort localeCompare
            (rosterKids st ++ [JS.trim (kidNameInput st)]))
  else st.

Definition handleRemoveKid (nameToRemove : string) (st : OnboardingScreen)
    : OnboardingScreen :=
  mkOnboarding (kidNameInput st)
    (filter (λ name, name ≠ nameToRemove) (rosterKids st)).

Definition onboardingStep (st : OnboardingScreen) (a : OnboardingAction)
    : OnboardingScreen :=
  match a with
  | TypeKid text => mkOnboarding text (rosterKids st)
  | AddKid => handleAddKid st
  | RemoveKid nameToRemove => handleRemoveKid nameToRemove st
  end.

Definition handleFinishSetup (userEmail : string) (st : OnboardingScreen)
    : UserDocument :=
  mkUser userEmail (rosterKids st) [].

(** The roster written after a run of the onboarding screen. *)
Definition onboard (userEmail : string) (actions : list OnboardingAction)
    : UserDocument :=
  handleFinishSetup userEmail
    (foldl onboardingStep (mkOnboarding "" []) actions).

(** *** ScheduleGrid *)

Definition getKidColor (planData : ScheduleDocument) (kid : string)
    : option string :=
  let sortedKids := JS.sort localeCompare (allKids planData) in
  let index := JS.indexOf sortedKids kid in
  JS.at_index kidColors (JS.remainder index (Z.of_nat (length kidColors))).

Definition gridCell (planData : ScheduleDocument) (c w : nat) : GridCell :=
  let attendees := attendeesAt (schedule planData) (key c w) in
  mkGridCell ((λ kid, (kid, getKidColor planData kid)) <$> attendees)
    (bool_decide (length attendees = 0)).

(** The table body: one row per camp, one cell per week. *)
Definition ScheduleGrid (planData : ScheduleDocument)
    : list (string * list GridCell) :=
  imap (λ c camp, (camp, gridCell planData c <$> seq 0 (weekCount planData)))
    (camps planData).

(** *** EditScheduleModal *)

Definition EditScheduleModal (modal : ModalProps)
    (planData : ScheduleDocument) : option EditView :=
  if negb (isOpen modal) then None
  else
    let kidsSorted := JS.sort localeCompare (allKids planData) in
    let k := cellKey (campIndex (modalCell modal))
                     (weekIndex (modalCell modal)) in
    let currentAttendees := attendeesAt (schedule planData) k in
    let selected := JS.Set_new currentAttendees in
    Some (mkEditView
            (c ← campIndex (modalCell modal); camps planData !! c)
            selected
            ((λ kid, (kid, JS.Set_has selected kid)) <$> kidsSorted)).

End Planner.

(** *** The parts that do not sort *)

Definition handleCheckboxChange (kid : string) (prev : list string)
    : list string :=
  let newSet := prev in
  if JS.Set_has newSet kid then JS.Set_delete kid newSet
  else JS.Set_add kid newSet.

(** [EditScheduleModal.handleSave] hands this list to
    [handleScheduleChange]. *)
Definition submittedAttendees (currentAttendees : list string)
    (toggles : list string) : list string :=
  JS.Array_from
    (foldl (λ s kid, handleCheckboxChange kid s)
       (JS.Set_new currentAttendees) toggles).

(** *** PrintableSummary *)

(** The loop over [campIndex], entered at [campIndex] with the camps from
    that position on still to visit. *)
Fixpoint findCamp (m : gmap string (list string)) (selectedKid : string)
    (w c : nat) (rest : list string) : WeekSummary :=
  match rest with
  | [] => mkWeek "No camp this week!" []
  | camp :: rest' =>
      let attendees := attendeesAt m (key c w) in
      if JS.includes attendees selectedKid
      then mkWeek camp (filter (λ name, name ≠ selectedKid) attendees)
      else findCamp m selectedKid w (S c) rest'
  end.

Definition weekSummary (planData : ScheduleDocument) (selectedKid : string)
    (w : nat) : WeekSummary :=
  findCamp (schedule planData) selectedKid w 0 (camps planData).

(** One entry per week, in week order. *)
Definition PrintableSummary (planData : ScheduleDocument)
    (selectedKid : string) : list WeekSummary :=
  weekSummary planData selectedKid <$> seq 0 (weekCount planData).

(** *** Dashboard *)

(** [Math.random().toString(36).substring(2, 8).toUpperCase()], for the
    digits the engine prints for the drawn number. *)
Definition newScheduleId (fraction : list nat) : string :=
  JS.toUpperCase (JS.substring 2 8 (JS.fractionToString36 fraction)).

(** [handleCreateSchedule(kidName)]: [setDoc] writes the new document under
    the identifier straight away, then the identifier is added to the
    user's list when the user document exists. *)
Definition handleCreateSchedule (fraction : list nat) (uid kid : string)
    (st : Store) : Store :=
  let newScheduleId := newScheduleId fraction in
  let created :=
    <[newScheduleId :=
        mkSchedule kid uid [] [] [kid] ∅ "2025-06-23" 8]> (scheduleDocs st) in
  mkStore created
    (alter (λ u, mkUser (email u) (kids u)
                   (arrayUnion (schedules u) newScheduleId))
       uid (userDocs st)).

(** ** Histories of one schedule *)

(** What a viewer can do to an open schedule: a visit to one of the two
    list dialogs, or an edit of a cell through the checkbox dialog. *)
Inductive DocAction :=
  | ManageList (listName : ListName) (actions : list ModalAction)
  | EditCell (c w : nat) (toggles : list string).

Definition docStep (localeCompare : string → string → Z)
    (d : ScheduleDocument) (a : DocAction) : ScheduleDocument :=
  match a with
  | ManageList listName actions => manageList localeCompare listName actions d
  | EditCell c w toggles =>
      handleScheduleChange (mkCell (Some c) (Some w))
        (submittedAttendees (attendeesAt (schedule d) (key c w)) toggles) d
  end.

(** The document a schedule is created as, then the history applied. *)
Definition scheduleAfter (localeCompare : string → string → Z)
    (uid kid : string) (history : list DocAction) : ScheduleDocument :=
  foldl (docStep localeCompare)
    (mkSchedule kid uid [] [] [kid] ∅ "2025-06-23" 8) history.

(** ** More of the views *)

(** Adding a camp by name through the dialog. *)
Definition addCamp (localeCompare : string → string → Z) (text : string)
    (d : ScheduleDocument) : ScheduleDocument :=
  manageList localeCompare camps_list [TypeItem text; AddItem] d.

(** [handleScheduleChange] run in a view that holds the snapshot [view],
    with its [updateDoc] applied to the document as stored: the stored
    [schedule] field is replaced by the map built from the snapshot. *)
Definition commitScheduleChange (currentCell : Cell)
    (updatedAttendees : list string) (view stored : ScheduleDocument)
    : ScheduleDocument :=
  match campIndex currentCell, weekIndex currentCell with
  | Some _, Some _ =>
      set_schedule
        (schedule (handleScheduleChange currentCell updatedAttendees view))
        stored
  | _, _ => stored
  end.

(** [Dashboard]: the kids of the roster no listed schedule is for. *)
Definition unscheduledKids (userKids : list string)
    (listed : list ScheduleDocument) : list string :=
  let scheduledKids := kidName <$> listed in
  filter (λ k, negb (JS.includes scheduledKids k) = true) userKids.

(** ** Example documents *)

(** The scenario's plan before anything is booked. *)
Definition twoCamps : ScheduleDocument :=
  mkSchedule "Bo" "u1" [] ["Art"; "Soccer"] ["Ann"; "Bo"] ∅ "2025-06-23" 2.

(** The camps of the scenario, with Bo booked into Soccer in week 0. *)
Definition artSoccer : ScheduleDocument :=
  mkSchedule "Bo" "u1" [] ["Art"; "Soccer"] ["Ann"; "Bo"]
    {[ key 1 0 := ["Bo"] ]} "2025-06-23" 2.

(** Ann and Bo both booked into Art in week 0, Bo also into Soccer. *)
Definition annInArt : ScheduleDocument :=
  mkSchedule "Ann" "u1" [] ["Art"; "Soccer"] ["Ann"; "Bo"]
    {[ key 0 0 := ["Ann"; "Bo"]; key 1 0 := ["Bo"] ]} "2025-06-23" 2.

(** A string without the separator of cell keys. *)
Fixpoint noDash (s : string) : Prop :=
  match s with
  | EmptyString => True
  | String a s' => a ≠ "-"%char ∧ noDash s'
  end.

(** Code units an identifier is meant to consist of: 0..9 and A..Z. *)
Definition upperAlnum (c : ascii) : bool :=
  let n := nat_of_ascii c in
  ((48 <=? n)%nat && (n <=? 57)%nat) || ((65 <=? n)%nat && (n <=? 90)%nat).

Fixpoint allUnits (p : ascii → bool) (s : string) : bool :=
  match s with
  | EmptyString => true
  | String c s' => p c && allUnits p s'
  end.

(** A store with one user and no schedule yet. *)
Definition oneUser : Store :=
  mkStore ∅ {[ "u1" := mkUser "bo@example.org" ["Bo"] [] ]}.

(** Decimal digits, the code units of a printed index. *)
Definition isDigit (c : ascii) : bool :=
  let n := nat_of_ascii c in (48 <=? n)%nat && (n <=? 57)%nat.

(** First and last code unit of a string. *)
Definition firstUnit (s : string) : option ascii :=
  match s with
  | EmptyString => None
  | String c _ => Some c
  end.

Fixpoint lastUnit (s : string) : option ascii :=
  match s with
  | EmptyString => None
  | String c EmptyString => Some c
  | String _ s' => lastUnit s'
  end.

(** The plan of the scenario with a third camp between the two. *)
Definition threeCamps : ScheduleDocument :=
  mkSchedule "Bo" "u1" [] ["Art"; "Chess"; "Soccer"] ["Ann"; "Bo"]
    {[ key 1 0 := ["Ann"]; key 2 0 := ["Bo"] ]} "2025-06-23" 2.

(** A plan whose cell still lists Cy, who is no longer among the kids. *)
Definition staleCy : ScheduleDocument :=
  mkSchedule "Bo" "u1" [] ["Art"; "Soccer"] ["Ann"; "Bo"]
    {[ key 0 0 := ["Cy"; "Bo"] ]} "2025-06-23" 2.

(** * Properties *)

(** ** Sorting with a consistent comparator *)

Section SortFacts.

Context (cmp : string → string → Z).

Lemma insert_perm x l : JS.insert cmp x l ≡ₚ x :: l.
Proof.
  induction l as [|y l IH]; simpl; [done|].
  case_decide; [done|]. rewrite IH. apply Permutation_swap.
Qed.

Lemma sort_perm l : JS.sort cmp l ≡ₚ l.
Proof.
  induction l as [|x l IH]; simpl; [done|].
  rewrite insert_perm. by f_equiv.
Qed.

Lemma elem_of_sort x l : x ∈ JS.sort cmp l ↔ x ∈ l.
Proof. by rewrite sort_perm. Qed.

Lemma NoDup_sort l : NoDup l → NoDup (JS.sort cmp l).
Proof. by rewrite sort_perm. Qed.

Lemma length_sort l : length (JS.sort cmp l) = length l.
Proof. by rewrite sort_perm. Qed.

Lemma insert_head x l :
  Forall (notAfter cmp x) l → JS.insert cmp x l = x :: l.
Proof.
  destruct 1 as [|y l Hy _]; simpl; [done|].
  unfold notAfter in Hy. by rewrite decide_True.
Qed.

Lemma sort_id l : StronglySorted (notAfter cmp) l → JS.sort cmp l = l.
Proof.
  induction 1 as [|x l _ IH Hx]; simpl; [done|].
  rewrite IH. by apply insert_head.
Qed.

Lemma Forall_filter_sub (Q P : string → Prop) `{!∀ x, Decision (P x)} l :
  Forall Q l → Forall Q (filter P l).
Proof.
  rewrite !Forall_forall. intros HQ x [_ Hx]%list_elem_of_filter. auto.
Qed.

Lemma StronglySorted_filter (P : string → Prop) `{!∀ x, Decision (P x)} l :
  StronglySorted (notAfter cmp) l →
  StronglySorted (notAfter cmp) (filter P l).
Proof.
  induction 1 as [|x l _ IH Hx]; [constructor|].
  rewrite filter_cons. case_decide; [|done].
  constructor; [done|]. by apply Forall_filter_sub.
Qed.

Context `{!ConsistentComparator cmp}.

Lemma notAfter_total a b : notAfter cmp a b ∨ notAfter cmp b a.
Proof.
  unfold notAfter. destruct (decide (cmp a b ≤ 0)%Z) as [|Hgt]; [by left|].
  right. assert (cmp b a < 0)%Z; [|lia]. apply cmp_flip. lia.
Qed.

Lemma notAfter_trans a b c :
  notAfter cmp a b → notAfter cmp b c → notAfter cmp a c.
Proof. apply cmp_trans. Qed.

Lemma insert_sorted x l :
  StronglySorted (notAfter cmp) l →
  StronglySorted (notAfter cmp) (JS.insert cmp x l).
Proof.
  induction 1 as [|y l Hl IH Hy]; simpl.
  - repeat constructor.
  - case_decide as Hxy.
    + constructor; [by constructor|].
      constructor; [done|].
      eapply Forall_impl; [exact Hy|].
      intros z Hz. by eapply notAfter_trans.
    + constructor; [done|].
      rewrite insert_perm. constructor; [|done].
      destruct (notAfter_total x y); [done|done].
Qed.

Lemma sort_sorted l : StronglySorted (notAfter cmp) (JS.sort cmp l).
Proof.
  induction l as [|x l IH]; simpl; [constructor|]. by apply insert_sorted.
Qed.

Lemma sort_sort l : JS.sort cmp (JS.sort cmp l) = JS.sort cmp l.
Proof. apply sort_id, sort_sorted. Qed.

Lemma filter_insert (P : string → Prop) `{!∀ x, Decision (P x)} x l :
  StronglySorted (notAfter cmp) l →
  filter P (JS.insert cmp x l) =
    if decide (P x) then JS.insert cmp x (filter P l) else filter P l.
Proof.
  induction 1 as [|y l Hl IH Hy]; simpl.
  - rewrite filter_cons, filter_nil. by case_decide.
  - destruct (decide (cmp x y ≤ 0)%Z) as [Hxy|Hxy].
    + rewrite filter_cons. destruct (decide (P x)); [|done].
      symmetry. apply insert_head, Forall_filter_sub.
      constructor; [done|].
      eapply Forall_impl; [exact Hy|].
      intros z Hz. by eapply notAfter_trans.
    + rewrite !(filter_cons _ y), IH.
      destruct (decide (P y)), (decide (P x)); simpl; try done.
      by rewrite decide_False.
Qed.

(** A stable sort commutes with filtering. *)
Lemma filter_sort (P : string → Prop) `{!∀ x, Decision (P x)} l :
  filter P (JS.sort cmp l) = JS.sort cmp (filter P l).
Proof.
  induction l as [|x l IH]; simpl; [done|].
  rewrite filter_insert by apply sort_sorted.
  rewrite filter_cons, IH. by case_decide.
Qed.

End SortFacts.

(** ** Array lookups *)

Section ArrayFacts.

Implicit Types (l : list string) (x : string).

Lemma indexOf_lower l x : (-1 ≤ JS.indexOf l x)%Z.
Proof.
  induction l as [|y l IH]; simpl; [done|].
  repeat case_decide; lia.
Qed.

Lemma indexOf_notin l x : x ∉ l → JS.indexOf l x = (-1)%Z.
Proof.
  induction l as [|y l IH]; simpl; [done|].
  intros [Hne Hnotin]%not_elem_of_cons.
  rewrite decide_False by done. rewrite IH by done. by rewrite decide_True.
Qed.

Lemma indexOf_in l x :
  x ∈ l →
  (0 ≤ JS.indexOf l x < Z.of_nat (length l))%Z
  ∧ l !! Z.to_nat (JS.indexOf l x) = Some x.
Proof.
  induction l as [|y l IH]; [by intros ?%elem_of_nil|].
  intros Hin. simpl. destruct (decide (y = x)) as [->|Hne].
  - split; [lia|done].
  - apply elem_of_cons in Hin as [->|Hin]; [done|].
    destruct (IH Hin) as [Hrange Hlook].
    rewrite decide_False by lia. split; [lia|].
    replace (Z.to_nat (JS.indexOf l x + 1)) with (S (Z.to_nat (JS.indexOf l x)))
      by lia.
    done.
Qed.

Lemma indexOf_neg_iff l x : (JS.indexOf l x < 0)%Z ↔ x ∉ l.
Proof.
  split.
  - intros Hneg Hin. apply indexOf_in in Hin. lia.
  - intros ->%indexOf_notin. lia.
Qed.

(** [indexOf] is the position of the first occurrence. *)
Lemma indexOf_first l x (i : nat) :
  l !! i = Some x →
  (∀ j, j < i → l !! j ≠ Some x) →
  JS.indexOf l x = Z.of_nat i.
Proof.
  revert i. induction l as [|y l IH]; intros i Hi Hfirst; [done|].
  simpl. destruct i as [|i]; simpl in Hi.
  - injection Hi as ->. by rewrite decide_True.
  - destruct (decide (y = x)) as [->|Hne].
    { by destruct (Hfirst 0); [lia|]. }
    rewrite (IH i Hi).
    + rewrite decide_False by lia. lia.
    + intros j Hj. apply (Hfirst (S j)). lia.
Qed.

Lemma indexOf_app_l pre l x :
  x ∈ pre → JS.indexOf (pre ++ l) x = JS.indexOf pre x.
Proof.
  induction pre as [|y pre IH]; [by intros ?%elem_of_nil|].
  intros Hin. simpl. destruct (decide (y = x)); [done|].
  apply elem_of_cons in Hin as [->|Hin]; [done|]. by rewrite IH.
Qed.

Lemma indexOf_app_r pre l x :
  x ∉ pre → x ∈ l →
  JS.indexOf (pre ++ l) x = (Z.of_nat (length pre) + JS.indexOf l x)%Z.
Proof.
  intros Hpre Hl. induction pre as [|y pre IH]; simpl; [lia|].
  apply not_elem_of_cons in Hpre as [Hne Hpre].
  rewrite decide_False by done. rewrite IH by done.
  apply indexOf_in in Hl. rewrite decide_False by lia. lia.
Qed.

Lemma at_index_nat {A} (l : list A) (n : nat) :
  JS.at_index l (Z.of_nat n) = l !! n.
Proof.
  unfold JS.at_index. rewrite decide_True by lia. by rewrite Nat2Z.id.
Qed.

Lemma at_index_negative {A} (l : list A) (i : Z) :
  (i < 0)%Z → JS.at_index l i = None.
Proof. intros. unfold JS.at_index. by rewrite decide_False by lia. Qed.

End ArrayFacts.

(** ** Cell keys *)

Section KeyFacts.

Lemma pretty_N_char_noDash (x : N) : pretty_N_char x ≠ "-"%char.
Proof. unfold pretty_N_char. by repeat case_match. Qed.

Lemma pretty_N_go_noDash (x : N) (s : string) :
  noDash s → noDash (pretty_N_go x s).
Proof.
  revert s. induction (N.lt_wf_0 x) as [x _ IH]; intros s Hs.
  destruct (decide (x = 0)%N) as [->|Hpos].
  - by rewrite pretty_N_go_0.
  - rewrite pretty_N_go_step by lia. apply IH.
    + apply N.div_lt; lia.
    + split; [apply pretty_N_char_noDash|done].
Qed.

Lemma numberToString_noDash (n : nat) : noDash (JS.numberToString n).
Proof.
  unfold JS.numberToString, pretty, pretty_nat, pretty, pretty_N.
  case_decide; [by repeat split|]. by apply pretty_N_go_noDash.
Qed.

(** The text before the first dash and the text after it are determined
    by the whole. *)
Lemma split_at_dash (s1 s2 t1 t2 : string) :
  noDash s1 → noDash s2 →
  s1 +:+ "-" +:+ t1 = s2 +:+ "-" +:+ t2 → s1 = s2 ∧ t1 = t2.
Proof.
  revert s2. induction s1 as [|a s1 IH]; intros [|b s2] H1 H2 Heq;
    simpl in *.
  - by simplify_eq.
  - injection Heq as Hb _. by destruct H2 as [[] _].
  - injection Heq as Ha _. by destruct H1 as [[] _].
  - injection Heq as -> Heq. destruct H1 as [_ H1], H2 as [_ H2].
    destruct (IH s2 H1 H2 Heq) as [-> ->]. done.
Qed.

(** Distinct cells have distinct keys. *)
Lemma key_inj (c w c' w' : nat) : key c w = key c' w' → c = c' ∧ w = w'.
Proof.
  unfold key, cellKey, indexToString. intros Heq.
  apply split_at_dash in Heq as [Hc Hw]; [|apply numberToString_noDash..].
  unfold JS.numberToString in *. split; by eapply (inj pretty).
Qed.

End KeyFacts.

(** ** The code-unit comparator is consistent *)

Lemma codeUnitCompare_notAfter (a b : string) :
  (JS.codeUnitCompare a b ≤ 0)%Z ↔ String.le a b.
Proof.
  unfold JS.codeUnitCompare, String.le, String.leb.
  destruct (String.compare a b); simpl; split; (done || lia).
Qed.

#[export] Instance codeUnitCompare_consistent :
  ConsistentComparator JS.codeUnitCompare.
Proof.
  split.
  - intros a b. unfold JS.codeUnitCompare.
    rewrite (String.compare_antisym a b).
    destruct (String.compare b a); simpl; lia.
  - intros a b c. rewrite !codeUnitCompare_notAfter. apply transitivity.
Qed.

(** ** Structural edits of the lists *)

Section ListEdits.

Context (localeCompare : string → string → Z).

Lemma schedule_handleUpdateList listName newList d :
  schedule (handleUpdateList localeCompare listName newList d) = schedule d.
Proof. by destruct listName. Qed.

Lemma schedule_manageList listName actions d :
  schedule (manageList localeCompare listName actions d) = schedule d.
Proof. apply schedule_handleUpdateList. Qed.

Lemma list_field_handleUpdateList listName newList d :
  list_field listName (handleUpdateList localeCompare listName newList d)
  = JS.sort localeCompare newList.
Proof. by destruct listName. Qed.

(** C2 (as amended): removing a kid name through the dialog takes the name
    out of [allKids] and leaves the assignment map as it was, so every
    cell keeps the attendee list it had, the removed name included. *)
Theorem remove_kid_keeps_assignment (d : ScheduleDocument) (kid : string) :
  (kid ∉ allKids (removeKid localeCompare kid d))
  ∧ schedule (removeKid localeCompare kid d) = schedule d
  ∧ (∀ c w, get (schedule (removeKid localeCompare kid d)) c w
            = get (schedule d) c w).
Proof.
  split; [|split].
  - unfold removeKid, manageList, handleSave. simpl.
    rewrite elem_of_sort, list_elem_of_filter. by intros [? _].
  - apply schedule_manageList.
  - intros c w. unfold removeKid. by rewrite schedule_manageList.
Qed.

Context `{!ConsistentComparator localeCompare}.

(** C1 (as amended): removing the camp at position [i] through the dialog
    rewrites the camps list only.  The assignment map is the same map
    afterwards, so [get c w] is unchanged for every camp index [c], below
    [i] or not: nothing is moved down and nothing is dropped. *)
Theorem remove_camp_keeps_assignment (d : ScheduleDocument) (i : nat) :
  schedule (removeCampAt localeCompare i d) = schedule d
  ∧ (∀ c w, get (schedule (removeCampAt localeCompare i d)) c w
            = get (schedule d) c w)
  ∧ (∀ camp, JS.sort localeCompare (camps d) !! i = Some camp →
       camps (removeCampAt localeCompare i d)
       = filter (λ item, item ≠ camp) (JS.sort localeCompare (camps d))).
Proof.
  assert (schedule (removeCampAt localeCompare i d) = schedule d) as Hsame.
  { unfold removeCampAt. case_match; [|done]. apply schedule_manageList. }
  split; [done|]. split; [by rewrite Hsame|].
  intros camp Hi. unfold removeCampAt. rewrite Hi.
  unfold manageList, handleSave. simpl.
  apply sort_id, StronglySorted_filter, sort_sorted; apply _.
Qed.

End ListEdits.

(** ** Writing one cell *)

Section CellWrites.

(** C3: after [handleScheduleChange] for the cell [(c, w)], [get c w] is
    the submitted list in its order; every other cell, and every other
    key of the map, reads as before, and no other field changes. *)
Theorem set_then_get (d : ScheduleDocument) (c w : nat)
    (attendees : list string) :
  let d' := handleScheduleChange (mkCell (Some c) (Some w)) attendees d in
  (get (schedule d') c w = attendees
   ∧ (∀ c' w', (c', w') ≠ (c, w) →
        schedule d' !! key c' w' = schedule d !! key c' w'
        ∧ get (schedule d') c' w' = get (schedule d) c' w')
   ∧ (∀ k, k ≠ key c w → schedule d' !! k = schedule d !! k)
   ∧ camps d' = camps d ∧ allKids d' = allKids d
   ∧ weekCount d' = weekCount d).
Proof.
  simpl. unfold get, attendeesAt, handleScheduleChange; simpl.
  fold (key c w). split; [by rewrite lookup_insert_eq|].
  split; [|split; [|done]].
  - intros c' w' Hne.
    assert (key c w ≠ key c' w') as Hkey.
    { intros Heq. apply key_inj in Heq as [Hc Hw]. congruence. }
    by rewrite lookup_insert_ne.
  - intros k Hk. by rewrite lookup_insert_ne.
Qed.

(** While no cell is selected the handler writes nothing. *)
Lemma handleScheduleChange_null (w : option nat) attendees d :
  handleScheduleChange (mkCell None w) attendees d = d
  ∧ handleScheduleChange (mkCell w None) attendees d = d.
Proof. unfold handleScheduleChange. by destruct w. Qed.

End CellWrites.

(** ** The lists stay sorted and free of duplicates *)

Section RosterInvariant.

Context (localeCompare : string → string → Z).
Context `{!ConsistentComparator localeCompare}.

Local Abbreviation sorted := (StronglySorted (notAfter localeCompare)).

Lemma includes_false l x : JS.includes l x = false → x ∉ l.
Proof. unfold JS.includes. by intros ?%bool_decide_eq_false. Qed.

Lemma NoDup_snoc_sort l x :
  NoDup l → x ∉ l → NoDup (JS.sort localeCompare (l ++ [x])).
Proof.
  intros Hl Hx. apply NoDup_sort, NoDup_app. split; [done|].
  split; [|apply NoDup_singleton].
  intros y Hy ->%list_elem_of_singleton. done.
Qed.

Lemma modalStep_tidy st a :
  NoDup (currentItems st) ∧ sorted (currentItems st) →
  NoDup (currentItems (modalStep localeCompare st a))
  ∧ sorted (currentItems (modalStep localeCompare st a)).
Proof.
  intros [Hnd Hs]. destruct a as [text| |item]; simpl; [done|..].
  - unfold handleAddItem.
    destruct (JS.truthy _ && negb (JS.includes _ _)) eqn:Hguard; [|done].
    apply andb_true_iff in Hguard as [_ Hfresh%negb_true_iff].
    simpl. split; [|apply sort_sorted; apply _].
    apply NoDup_snoc_sort; [done|by apply includes_false].
  - split; [by apply NoDup_filter|by apply StronglySorted_filter].
Qed.

Lemma modalRun_tidy actions st :
  NoDup (currentItems st) ∧ sorted (currentItems st) →
  NoDup (currentItems (foldl (modalStep localeCompare) st actions))
  ∧ sorted (currentItems (foldl (modalStep localeCompare) st actions)).
Proof.
  revert st. induction actions as [|a actions IH]; intros st Hst; [done|].
  simpl. by apply IH, modalStep_tidy.
Qed.

Lemma onboardingStep_tidy st a :
  NoDup (rosterKids st) ∧ sorted (rosterKids st) →
  NoDup (rosterKids (onboardingStep localeCompare st a))
  ∧ sorted (rosterKids (onboardingStep localeCompare st a)).
Proof.
  intros [Hnd Hs]. destruct a as [text| |name]; simpl; [done|..].
  - unfold handleAddKid.
    destruct (JS.truthy _ && negb (JS.includes _ _)) eqn:Hguard; [|done].
    apply andb_true_iff in Hguard as [_ Hfresh%negb_true_iff].
    simpl. split; [|apply sort_sorted; apply _].
    apply NoDup_snoc_sort; [done|by apply includes_false].
  - split; [by apply NoDup_filter|by apply StronglySorted_filter].
Qed.

Lemma onboardingRun_tidy actions st :
  NoDup (rosterKids st) ∧ sorted (rosterKids st) →
  NoDup (rosterKids (foldl (onboardingStep localeCompare) st actions))
  ∧ sorted (rosterKids (foldl (onboardingStep localeCompare) st actions)).
Proof.
  revert st. induction actions as [|a actions IH]; intros st Hst; [done|].
  simpl. by apply IH, onboardingStep_tidy.
Qed.

Lemma manageList_tidy listName actions d :
  NoDup (list_field listName d) →
  NoDup (list_field listName (manageList localeCompare listName actions d))
  ∧ sorted (list_field listName
              (manageList localeCompare listName actions d)).
Proof.
  intros Hnd. unfold manageList, handleSave.
  rewrite list_field_handleUpdateList.
  split; [|apply sort_sorted; apply _].
  apply NoDup_sort, modalRun_tidy. simpl.
  split; [by apply NoDup_sort|apply sort_sorted; apply _].
Qed.

Lemma docStep_tidy d a :
  (NoDup (camps d) ∧ sorted (camps d))
  ∧ (NoDup (allKids d) ∧ sorted (allKids d)) →
  (NoDup (camps (docStep localeCompare d a))
   ∧ sorted (camps (docStep localeCompare d a)))
  ∧ (NoDup (allKids (docStep localeCompare d a))
     ∧ sorted (allKids (docStep localeCompare d a))).
Proof.
  intros [[Hc Hcs] [Hk Hks]]. destruct a as [[|] actions|c w toggles].
  - split; [by apply (manageList_tidy camps_list)|done].
  - split; [done|by apply (manageList_tidy allKids_list)].
  - done.
Qed.

Lemma history_tidy history d :
  (NoDup (camps d) ∧ sorted (camps d))
  ∧ (NoDup (allKids d) ∧ sorted (allKids d)) →
  (NoDup (camps (foldl (docStep localeCompare) d history))
   ∧ sorted (camps (foldl (docStep localeCompare) d history)))
  ∧ (NoDup (allKids (foldl (docStep localeCompare) d history))
     ∧ sorted (allKids (foldl (docStep localeCompare) d history))).
Proof.
  revert d. induction history as [|a history IH]; intros d Hd; [done|].
  simpl. by apply IH, docStep_tidy.
Qed.

(** An add with a blank or already listed name changes nothing. *)
Lemma handleAddItem_noop st :
  JS.trim (newItem st) = EmptyString
  ∨ JS.trim (newItem st) ∈ currentItems st →
  handleAddItem localeCompare st = st.
Proof.
  unfold handleAddItem, JS.truthy, JS.includes. intros [->|Hin].
  - by rewrite bool_decide_eq_false_2 by (intros Hne; by apply Hne).
  - rewrite (bool_decide_eq_true_2 (_ ∈ _)) by done.
    by rewrite andb_false_r.
Qed.

Lemma handleAddKid_noop st :
  JS.trim (kidNameInput st) = EmptyString
  ∨ JS.trim (kidNameInput st) ∈ rosterKids st →
  handleAddKid localeCompare st = st.
Proof.
  unfold handleAddKid, JS.truthy, JS.includes. intros [->|Hin].
  - by rewrite bool_decide_eq_false_2 by (intros Hne; by apply Hne).
  - rewrite (bool_decide_eq_true_2 (_ ∈ _)) by done.
    by rewrite andb_false_r.
Qed.

(** C4: whatever is added and removed in the dialog, the list written
    back to [camps] or [allKids] is sorted and, when the stored list had
    no duplicates, has none; the roster built on the onboarding screen
    is sorted and free of duplicates after every run of adds and removes;
    so are [camps] and [allKids] after every history of a schedule from
    its creation; and an add of a blank or already listed name is a
    no-op.  The order is the one of the comparator the code sorts
    with. *)
Theorem lists_sorted_and_distinct :
  (∀ listName actions d,
     sorted (list_field listName (manageList localeCompare listName actions d))
     ∧ (NoDup (list_field listName d) →
        NoDup (list_field listName
                 (manageList localeCompare listName actions d))))
  ∧ (∀ userEmail actions,
       NoDup (kids (onboard localeCompare userEmail actions))
       ∧ sorted (kids (onboard localeCompare userEmail actions)))
  ∧ (∀ uid kid history,
       (NoDup (camps (scheduleAfter localeCompare uid kid history))
        ∧ sorted (camps (scheduleAfter localeCompare uid kid history)))
       ∧ (NoDup (allKids (scheduleAfter localeCompare uid kid history))
          ∧ sorted (allKids (scheduleAfter localeCompare uid kid history))))
  ∧ (∀ st, JS.trim (newItem st) = EmptyString
           ∨ JS.trim (newItem st) ∈ currentItems st →
           handleAddItem localeCompare st = st)
  ∧ (∀ st, JS.trim (kidNameInput st) = EmptyString
           ∨ JS.trim (kidNameInput st) ∈ rosterKids st →
           handleAddKid localeCompare st = st).
Proof.
  split; [|split; [|split; [|split]]].
  - intros listName actions d. unfold manageList, handleSave.
    rewrite list_field_handleUpdateList.
    split; [apply sort_sorted; apply _|].
    intros Hnd. apply NoDup_sort, modalRun_tidy. simpl.
    split; [by apply NoDup_sort|apply sort_sorted; apply _].
  - intros userEmail actions. unfold onboard, handleFinishSetup. simpl.
    apply onboardingRun_tidy. simpl. split; constructor.
  - intros uid kid history. unfold scheduleAfter.
    apply history_tidy. simpl.
    split; split;
      [apply NoDup_nil_2|constructor|apply NoDup_singleton
      |repeat constructor].
  - apply handleAddItem_noop.
  - apply handleAddKid_noop.
Qed.

End RosterInvariant.

(** ** The per-kid summary *)

Section Summary.

Implicit Types (m : gmap string (list string)) (rest : list string).

Lemma includes_true l x : JS.includes l x = true ↔ x ∈ l.
Proof. unfold JS.includes. apply bool_decide_eq_true. Qed.

Lemma findCamp_none m kid w c0 rest :
  (∀ j, j < length rest → kid ∉ attendeesAt m (key (c0 + j) w)) →
  findCamp m kid w c0 rest = mkWeek "No camp this week!" [].
Proof.
  revert c0. induction rest as [|camp rest IH]; intros c0 Hnone; [done|].
  simpl. assert (JS.includes (attendeesAt m (key c0 w)) kid = false) as ->.
  { apply not_true_iff_false. rewrite includes_true.
    specialize (Hnone 0). rewrite Nat.add_0_r in Hnone.
    apply Hnone. simpl. lia. }
  apply IH. intros j Hj. replace (S c0 + j) with (c0 + S j) by lia.
  apply Hnone. simpl. lia.
Qed.

Lemma findCamp_first m kid w c0 rest j camp :
  rest !! j = Some camp →
  kid ∈ attendeesAt m (key (c0 + j) w) →
  (∀ j', j' < j → kid ∉ attendeesAt m (key (c0 + j') w)) →
  findCamp m kid w c0 rest
  = mkWeek camp
      (filter (λ name, name ≠ kid) (attendeesAt m (key (c0 + j) w))).
Proof.
  revert c0 j. induction rest as [|camp0 rest IH]; intros c0 j Hj Hin Hlow;
    [done|].
  simpl. destruct j as [|j]; simpl in Hj.
  - injection Hj as ->. rewrite Nat.add_0_r in *.
    by rewrite (proj2 (includes_true _ _) Hin).
  - assert (JS.includes (attendeesAt m (key c0 w)) kid = false) as ->.
    { apply not_true_iff_false. rewrite includes_true.
      specialize (Hlow 0). rewrite Nat.add_0_r in Hlow. apply Hlow. lia. }
    replace (c0 + S j) with (S c0 + j) in * by lia.
    apply IH; [done|done|].
    intros j' Hj'. replace (S c0 + j') with (c0 + S j') by lia.
    apply Hlow. lia.
Qed.

(** C5: for a week [w] below [weekCount] the summary has an entry; it
    names the camp of the lowest index whose cell lists the kid, with the
    other names of that cell as friends, and it is the "no camp" entry
    when no camp's cell lists the kid. *)
Theorem summary_first_match (d : ScheduleDocument) (kid : string) (w : nat) :
  w < weekCount d →
  ∃ entry,
    PrintableSummary d kid !! w = Some entry
    ∧ (∀ c camp,
         camps d !! c = Some camp →
         kid ∈ get (schedule d) c w →
         (∀ c', c' < c → kid ∉ get (schedule d) c' w) →
         entry = mkWeek camp
                   (filter (λ name, name ≠ kid) (get (schedule d) c w)))
    ∧ ((∀ c, c < length (camps d) → kid ∉ get (schedule d) c w) →
       entry = mkWeek "No camp this week!" []).
Proof.
  intros Hw. exists (weekSummary d kid w). split; [|split].
  - unfold PrintableSummary. rewrite list_lookup_fmap.
    by rewrite lookup_seq_lt.
  - intros c camp Hc Hin Hlow. unfold weekSummary.
    by rewrite (findCamp_first _ _ _ 0 _ c camp).
  - intros Hnone. unfold weekSummary. by apply findCamp_none.
Qed.

Lemma length_PrintableSummary d kid :
  length (PrintableSummary d kid) = weekCount d.
Proof. unfold PrintableSummary. by rewrite length_fmap, length_seq. Qed.

End Summary.

(** ** Colours *)

Section Colours.

Context (localeCompare : string → string → Z).

Lemma kidColors_length : length kidColors = 8.
Proof. reflexivity. Qed.

Lemma kidColors_NoDup : NoDup kidColors.
Proof. compute_done. Qed.

Lemma remainder_nat (i n : nat) :
  0 < n → JS.remainder (Z.of_nat i) (Z.of_nat n) = Z.of_nat (i mod n).
Proof.
  intros Hn. unfold JS.remainder.
  rewrite Z.rem_mod_nonneg by lia. by rewrite Nat2Z.inj_mod.
Qed.

(** The colour of the kid at sorted rank [i]. *)
Lemma getKidColor_rank (d : ScheduleDocument) (kid : string) (i : nat) :
  JS.sort localeCompare (allKids d) !! i = Some kid →
  (∀ j, j < i → JS.sort localeCompare (allKids d) !! j ≠ Some kid) →
  getKidColor localeCompare d kid = kidColors !! (i mod 8).
Proof.
  intros Hi Hfirst. unfold getKidColor.
  rewrite (indexOf_first _ _ i Hi Hfirst), kidColors_length.
  rewrite (remainder_nat i 8) by lia. apply at_index_nat.
Qed.

(** C10: for a name that is not in [allKids] the rank lookup gives [-1],
    [-1 % 8] is [-1], and the palette has nothing at [-1]: no colour
    comes back.  For a name in [allKids] a colour of the palette does. *)
Theorem colour_only_for_listed_kids (d : ScheduleDocument) (kid : string) :
  (kid ∉ allKids d →
     JS.indexOf (JS.sort localeCompare (allKids d)) kid = (-1)%Z
     ∧ JS.remainder (-1) (Z.of_nat (length kidColors)) = (-1)%Z
     ∧ getKidColor localeCompare d kid = None)
  ∧ (kid ∈ allKids d →
     ∃ colour, getKidColor localeCompare d kid = Some colour
               ∧ colour ∈ kidColors).
Proof.
  split.
  - intros Hnotin.
    assert (JS.indexOf (JS.sort localeCompare (allKids d)) kid = (-1)%Z)
      as Hidx by (apply indexOf_notin; by rewrite elem_of_sort).
    split; [done|]. split; [done|].
    unfold getKidColor. rewrite Hidx. done.
  - intros Hin. apply (elem_of_sort localeCompare) in Hin.
    apply indexOf_in in Hin as [[Hlo _] _]. unfold getKidColor.
    set (idx := JS.indexOf _ _) in *.
    rewrite <-(Z2Nat.id idx) by done.
    rewrite kidColors_length, (remainder_nat _ 8) by lia.
    rewrite at_index_nat.
    destruct (lookup_lt_is_Some_2 kidColors (Z.to_nat idx mod 8))
      as [colour Hcolour].
    { rewrite kidColors_length. apply Nat.mod_upper_bound. lia. }
    exists colour. split; [done|]. by eapply list_elem_of_lookup_2.
Qed.

Lemma filter_ne_notin (x : string) (l : list string) :
  x ∉ l → filter (λ y, y ≠ x) l = l.
Proof.
  induction l as [|y l IH]; [done|].
  intros [Hne Hnotin]%not_elem_of_cons.
  rewrite filter_cons_True by done. by rewrite IH.
Qed.

(** Ranks in a list with one entry [n] put in at some position, against
    the list without it. *)
Lemma indexOf_with_newcomer (pre post : list string) (n k : string) :
  k ≠ n → n ∉ pre →
  (JS.indexOf (pre ++ n :: post) n < JS.indexOf (pre ++ n :: post) k →
     JS.indexOf (pre ++ n :: post) k = JS.indexOf (pre ++ post) k + 1)%Z
  ∧ (k ∈ pre ++ post →
     JS.indexOf (pre ++ n :: post) k < JS.indexOf (pre ++ n :: post) n →
     JS.indexOf (pre ++ n :: post) k = JS.indexOf (pre ++ post) k)%Z.
Proof.
  intros Hne Hpre.
  assert (JS.indexOf (pre ++ n :: post) n = Z.of_nat (length pre)) as Hn.
  { rewrite indexOf_app_r by (done || apply list_elem_of_here).
    simpl. rewrite decide_True by done. lia. }
  rewrite Hn. destruct (decide (k ∈ pre)) as [Hk|Hk].
  - rewrite !indexOf_app_l by done.
    pose proof (indexOf_in pre k Hk) as [? _]. split; [lia|done].
  - destruct (decide (k ∈ post)) as [Hpost|Hpost].
    + rewrite !indexOf_app_r by (done || by apply list_elem_of_further).
      simpl. rewrite decide_False by done.
      pose proof (indexOf_in post k Hpost) as [? _].
      rewrite decide_False by lia. split; [lia|lia].
    + assert (k ∉ pre ++ n :: post) as Hout.
      { rewrite elem_of_app, elem_of_cons. by intros [?|[?|?]]. }
      rewrite (indexOf_notin _ _ Hout). split; [lia|].
      rewrite elem_of_app. by intros [?|?].
Qed.

Context `{!ConsistentComparator localeCompare}.

Lemma allKids_addKid (d : ScheduleDocument) (text : string) :
  JS.trim text ≠ EmptyString → JS.trim text ∉ allKids d →
  JS.sort localeCompare (allKids (addKid localeCompare text d))
  = JS.sort localeCompare
      (JS.sort localeCompare (allKids d) ++ [JS.trim text]).
Proof.
  intros Hblank Hnew. unfold addKid, manageList, handleSave. simpl.
  unfold handleAddItem. simpl.
  unfold JS.truthy, JS.includes.
  rewrite bool_decide_eq_true_2 by done.
  rewrite bool_decide_eq_false_2 by (by rewrite elem_of_sort).
  simpl. by rewrite !sort_sort.
Qed.

(** The sorted list after an add is the sorted list before it with the
    new name put in at one position. *)
Lemma sorted_after_add (l : list string) (n : string) :
  n ∉ l →
  ∃ pre post,
    JS.sort localeCompare (JS.sort localeCompare l ++ [n])
      = pre ++ n :: post
    ∧ JS.sort localeCompare l = pre ++ post
    ∧ n ∉ pre.
Proof.
  intros Hn.
  assert (n ∈ JS.sort localeCompare (JS.sort localeCompare l ++ [n]))
    as Hin.
  { rewrite elem_of_sort, elem_of_app, list_elem_of_singleton. by right. }
  apply list_elem_of_split_l in Hin as (pre & post & Heq & Hpre).
  exists pre, post. split; [done|]. split; [|done].
  assert (pre ++ post ≡ₚ l) as Hperm.
  { apply (Permutation_cons_inv (a := n)).
    rewrite Permutation_middle, <-Heq, sort_perm.
    rewrite <-Permutation_cons_append. by rewrite sort_perm. }
  assert (n ∉ post) as Hpost.
  { intros Hp. apply Hn. rewrite <-Hperm, elem_of_app. by right. }
  transitivity (filter (λ y, y ≠ n)
                  (JS.sort localeCompare (JS.sort localeCompare l ++ [n]))).
  - rewrite filter_sort, filter_app by apply _.
    rewrite filter_ne_notin by (by rewrite elem_of_sort).
    rewrite filter_cons_False, filter_nil by (intros Hne; by apply Hne).
    by rewrite app_nil_r, sort_sort.
  - rewrite Heq, filter_app, filter_cons_False
      by (intros Hne; by apply Hne).
    by rewrite !filter_ne_notin.
Qed.

(** C6: a listed kid's colour is the palette entry at its rank in the
    sorted [allKids], taken modulo the palette's length; the palette has
    eight distinct entries; and after a new name is added through the
    dialog, a kid ranked after the newcomer has the colour of its old
    rank plus one, a kid ranked before it keeps its colour. *)
Theorem colour_by_sorted_rank (d : ScheduleDocument) (kid : string) :
  kid ∈ allKids d →
  (∃ rank : nat,
     JS.sort localeCompare (allKids d) !! rank = Some kid
     ∧ JS.indexOf (JS.sort localeCompare (allKids d)) kid = Z.of_nat rank
     ∧ getKidColor localeCompare d kid
       = kidColors !! (rank mod length kidColors)
     ∧ ∀ text d',
         JS.trim text ≠ EmptyString → JS.trim text ∉ allKids d →
         d' = addKid localeCompare text d →
         let sorted' := JS.sort localeCompare (allKids d') in
         ((JS.indexOf sorted' (JS.trim text) < JS.indexOf sorted' kid)%Z →
            getKidColor localeCompare d' kid
            = kidColors !! ((rank + 1) mod length kidColors))
         ∧ ((JS.indexOf sorted' kid < JS.indexOf sorted' (JS.trim text))%Z →
            getKidColor localeCompare d' kid
            = getKidColor localeCompare d kid))
  ∧ 8 ≤ length kidColors ∧ NoDup kidColors.
Proof.
  intros Hin. split; [|split; [by rewrite kidColors_length
                              |apply kidColors_NoDup]].
  pose proof Hin as Hs. apply (elem_of_sort localeCompare) in Hs.
  destruct (indexOf_in _ _ Hs) as [[Hlo Hhi] Hlook].
  set (sorted := JS.sort localeCompare (allKids d)) in *.
  exists (Z.to_nat (JS.indexOf sorted kid)).
  assert (getKidColor localeCompare d kid
          = kidColors !! (Z.to_nat (JS.indexOf sorted kid)
                          mod length kidColors)) as Hcolour.
  { unfold getKidColor. fold sorted.
    rewrite <-(Z2Nat.id (JS.indexOf sorted kid)) at 1 by done.
    rewrite remainder_nat by (rewrite kidColors_length; lia).
    apply at_index_nat. }
  split; [done|]. split; [by rewrite Z2Nat.id|]. split; [done|].
  intros text d' Hblank Hnew -> sorted'.
  assert (kid ≠ JS.trim text) as Hne by (by intros ->).
  destruct (sorted_after_add (allKids d) (JS.trim text) Hnew)
    as (pre & post & Hafter & Hbefore & Hpre).
  assert (sorted' = pre ++ JS.trim text :: post) as Hsorted'.
  { unfold sorted'. by rewrite allKids_addKid. }
  destruct (indexOf_with_newcomer pre post (JS.trim text) kid Hne Hpre)
    as [Hshift Hkeep].
  rewrite <-Hsorted' in Hshift, Hkeep. fold sorted in Hbefore.
  rewrite <-Hbefore in Hshift, Hkeep.
  assert (∀ r : Z, (0 ≤ r)%Z → JS.indexOf sorted' kid = r →
            getKidColor localeCompare (addKid localeCompare text d) kid
            = kidColors !! (Z.to_nat r mod length kidColors)) as Hnew'.
  { intros r Hr Hidx. unfold getKidColor. fold sorted'. rewrite Hidx.
    rewrite <-(Z2Nat.id r) at 1 by done.
    rewrite remainder_nat by (rewrite kidColors_length; lia).
    apply at_index_nat. }
  split.
  - intros Hlt. specialize (Hshift Hlt).
    rewrite (Hnew' (JS.indexOf sorted kid + 1)%Z); [|lia|done].
    f_equal. f_equal. lia.
  - intros Hlt. rewrite (Hnew' _ Hlo (Hkeep Hs Hlt)). by rewrite Hcolour.
Qed.

End Colours.

(** ** Readers of the assignment map *)

Section Readers.

Context (localeCompare : string → string → Z).

Implicit Types (m : gmap string (list string)).

Lemma attendeesAt_insert_empty m k k' :
  m !! k = None → attendeesAt (<[k := []]> m) k' = attendeesAt m k'.
Proof.
  intros Hk. unfold attendeesAt. destruct (decide (k = k')) as [<-|Hne].
  - by rewrite lookup_insert_eq, Hk.
  - by rewrite lookup_insert_ne.
Qed.

Lemma findCamp_ext m1 m2 kid w c0 rest :
  (∀ k, attendeesAt m1 k = attendeesAt m2 k) →
  findCamp m1 kid w c0 rest = findCamp m2 kid w c0 rest.
Proof.
  intros Hsame. revert c0.
  induction rest as [|camp rest IH]; intros c0; [done|].
  simpl. rewrite Hsame. by rewrite IH.
Qed.

Lemma gridCell_ext d m c w :
  (∀ k, attendeesAt m k = attendeesAt (schedule d) k) →
  gridCell localeCompare (set_schedule m d) c w
  = gridCell localeCompare d c w.
Proof. intros Hsame. unfold gridCell. simpl. by rewrite Hsame. Qed.

(** Every reader sees the map only through [schedule[key] || []]. *)
Lemma readers_ext d m :
  (∀ k, attendeesAt m k = attendeesAt (schedule d) k) →
  ScheduleGrid localeCompare (set_schedule m d) = ScheduleGrid localeCompare d
  ∧ (∀ kid, PrintableSummary (set_schedule m d) kid = PrintableSummary d kid)
  ∧ (∀ modal, EditScheduleModal localeCompare modal (set_schedule m d)
              = EditScheduleModal localeCompare modal d).
Proof.
  intros Hsame. split; [|split].
  - unfold ScheduleGrid. simpl. apply imap_ext. intros c camp _.
    f_equal. apply list_fmap_ext. intros i w _. by apply gridCell_ext.
  - intros kid. unfold PrintableSummary. simpl.
    apply list_fmap_ext. intros i w _. unfold weekSummary. simpl.
    by apply findCamp_ext.
  - intros modal. unfold EditScheduleModal. simpl. by rewrite Hsame.
Qed.

(** C8: storing an empty list under a key that was absent changes the
    output of no reader: the grid, the per-kid summary and the cell
    editor all show what they showed before. *)
Theorem absent_reads_as_empty (d : ScheduleDocument) (k : string) :
  schedule d !! k = None →
  ScheduleGrid localeCompare (set_schedule (<[k := []]> (schedule d)) d)
  = ScheduleGrid localeCompare d
  ∧ (∀ kid, PrintableSummary (set_schedule (<[k := []]> (schedule d)) d) kid
            = PrintableSummary d kid)
  ∧ (∀ modal,
       EditScheduleModal localeCompare modal
         (set_schedule (<[k := []]> (schedule d)) d)
       = EditScheduleModal localeCompare modal d).
Proof.
  intros Hk. apply readers_ext. intros k'.
  by apply attendeesAt_insert_empty.
Qed.

End Readers.

(** ** The cell editor's selection *)

Section Toggles.

Implicit Types (s : list string) (x kid : string).

Lemma NoDup_Set_add x s : NoDup s → NoDup (JS.Set_add x s).
Proof.
  intros Hs. unfold JS.Set_add, JS.Set_has. case_bool_decide; [done|].
  apply NoDup_app. split; [done|]. split; [|apply NoDup_singleton].
  intros y Hy ->%list_elem_of_singleton. done.
Qed.

Lemma NoDup_Set_delete x s : NoDup s → NoDup (JS.Set_delete x s).
Proof. apply NoDup_filter. Qed.

Lemma NoDup_Set_new_from s l :
  NoDup s → NoDup (foldl (λ s x, JS.Set_add x s) s l).
Proof.
  revert s. induction l as [|x l IH]; intros s Hs; [done|].
  simpl. by apply IH, NoDup_Set_add.
Qed.

Lemma NoDup_Set_new l : NoDup (JS.Set_new l).
Proof. apply NoDup_Set_new_from, NoDup_nil_2. Qed.

Lemma NoDup_handleCheckboxChange kid s :
  NoDup s → NoDup (handleCheckboxChange kid s).
Proof.
  intros Hs. unfold handleCheckboxChange.
  destruct (JS.Set_has s kid);
    [by apply NoDup_Set_delete|by apply NoDup_Set_add].
Qed.

Lemma NoDup_toggles toggles s :
  NoDup s → NoDup (foldl (λ s kid, handleCheckboxChange kid s) s toggles).
Proof.
  revert s. induction toggles as [|kid toggles IH]; intros s Hs; [done|].
  simpl. by apply IH, NoDup_handleCheckboxChange.
Qed.

Lemma get_handleScheduleChange d c w attendees :
  get (schedule
         (handleScheduleChange (mkCell (Some c) (Some w)) attendees d)) c w
  = attendees.
Proof.
  unfold get, attendeesAt, handleScheduleChange. simpl.
  fold (key c w). by rewrite lookup_insert_eq.
Qed.

(** C9: whatever the cell held when the editor opened, and whatever
    boxes are toggled, the list handed to [handleScheduleChange] has no
    name twice; the handler itself stores any list as given, repeated
    names included. *)
Theorem toggles_submit_no_duplicates :
  (∀ currentAttendees toggles,
     NoDup (submittedAttendees currentAttendees toggles))
  ∧ (∀ d c w kid,
       get (schedule
              (handleScheduleChange (mkCell (Some c) (Some w)) [kid; kid] d))
         c w = [kid; kid]).
Proof.
  split.
  - intros currentAttendees toggles. unfold submittedAttendees, JS.Array_from.
    apply NoDup_toggles, NoDup_Set_new.
  - intros d c w kid. apply get_handleScheduleChange.
Qed.

End Toggles.

(** ** Schedule identifiers *)

Section Identifiers.

Lemma length_toUpperCase s :
  String.length (JS.toUpperCase s) = String.length s.
Proof. induction s as [|c s IH]; simpl; [done|]. by rewrite IH. Qed.

Lemma length_digits36 ds : String.length (JS.digits36 ds) = length ds.
Proof. induction ds as [|d ds IH]; simpl; [done|]. by rewrite IH. Qed.

Lemma length_substring_0 n s :
  String.length (String.substring 0 n s) = n `min` String.length s.
Proof.
  revert s. induction n as [|n IH]; intros [|c s]; simpl; try done.
  by rewrite IH.
Qed.

(** The identifier has one code unit per printed digit, six at most. *)
Lemma length_newScheduleId fraction :
  String.length (newScheduleId fraction) = 6 `min` length fraction.
Proof.
  unfold newScheduleId. rewrite length_toUpperCase.
  destruct fraction as [|d ds]; [done|].
  change (JS.substring 2 8 (JS.fractionToString36 (d :: ds)))
    with (String.substring 0 6 (JS.digits36 (d :: ds))).
  by rewrite length_substring_0, length_digits36.
Qed.

Lemma digit36_upper d :
  d < 36 → upperAlnum (JS.toUpperCase_unit (JS.digit36 d)) = true.
Proof.
  intros Hd.
  assert (forallb (λ d, upperAlnum (JS.toUpperCase_unit (JS.digit36 d)))
            (seq 0 36) = true) as Hall by reflexivity.
  rewrite forallb_forall in Hall. apply Hall, in_seq. lia.
Qed.

Lemma allUnits_substring_0 p n s :
  allUnits p s = true → allUnits p (String.substring 0 n s) = true.
Proof.
  revert s. induction n as [|n IH]; intros [|c s]; simpl; try done.
  intros [-> Hs]%andb_true_iff. by apply IH.
Qed.

Lemma allUnits_digits36 ds :
  Forall (λ d, d < 36) ds →
  allUnits upperAlnum (JS.toUpperCase (JS.digits36 ds)) = true.
Proof.
  induction 1 as [|d ds Hd _ IH]; simpl; [done|].
  by rewrite digit36_upper, IH.
Qed.

Lemma toUpperCase_substring_0 n s :
  JS.toUpperCase (String.substring 0 n s)
  = String.substring 0 n (JS.toUpperCase s).
Proof.
  revert s. induction n as [|n IH]; intros [|c s]; simpl; try done.
  by rewrite IH.
Qed.

(** Every code unit of an identifier is a digit or a capital letter. *)
Lemma newScheduleId_alphabet fraction :
  Forall (λ d, d < 36) fraction →
  allUnits upperAlnum (newScheduleId fraction) = true.
Proof.
  intros Hds. unfold newScheduleId.
  destruct fraction as [|d ds]; [done|].
  change (JS.substring 2 8 (JS.fractionToString36 (d :: ds)))
    with (String.substring 0 6 (JS.digits36 (d :: ds))).
  rewrite toUpperCase_substring_0.
  by apply allUnits_substring_0, allUnits_digits36.
Qed.

(** The new document is stored under the identifier whatever was stored
    there before; no read precedes the write. *)
Lemma handleCreateSchedule_overwrites fraction uid kid st :
  scheduleDocs (handleCreateSchedule fraction uid kid st)
    !! newScheduleId fraction
  = Some (mkSchedule kid uid [] [] [kid] ∅ "2025-06-23" 8).
Proof. unfold handleCreateSchedule. simpl. apply lookup_insert_eq. Qed.

(** C7: when [Math.random()] draws one half, which prints as "0.i" in
    base 36, the identifier is the single code unit "I", not six of
    them; and an identifier has six code units only when six digits or
    more are printed. *)
Theorem schedule_id_of_one_half :
  newScheduleId [18] = "I"
  ∧ String.length (newScheduleId [18]) = 1
  ∧ (∀ fraction,
       String.length (newScheduleId fraction) = 6 ↔ 6 ≤ length fraction).
Proof.
  split; [done|]. split; [done|].
  intros fraction. rewrite length_newScheduleId. lia.
Qed.

End Identifiers.

(** ** The model at work on the example documents *)

Lemma remove_camp_keeps_assignment_witness :
  ConsistentComparator JS.codeUnitCompare
  ∧ camps (removeCampAt JS.codeUnitCompare 0 artSoccer)
    = filter (λ item, item ≠ "Art")
        (JS.sort JS.codeUnitCompare (camps artSoccer)).
Proof.
  split; [exact codeUnitCompare_consistent|].
  destruct (remove_camp_keeps_assignment JS.codeUnitCompare artSoccer 0)
    as (_ & _ & Hcamps).
  apply Hcamps. reflexivity.
Defined.

(** Removing "Art" leaves Bo's booking under the key of index 1: the cell
    of Soccer, now at index 0, reads empty, and the one camp left has no
    index 1. *)
Lemma remove_art_strands_booking :
  camps (removeCampAt JS.codeUnitCompare 0 artSoccer) = ["Soccer"]
  ∧ get (schedule artSoccer) 1 0 = ["Bo"]
  ∧ get (schedule (removeCampAt JS.codeUnitCompare 0 artSoccer)) 0 0 ≠ ["Bo"]
  ∧ get (schedule (removeCampAt JS.codeUnitCompare 0 artSoccer)) 1 0 = ["Bo"]
  ∧ ¬ 1 < length (camps (removeCampAt JS.codeUnitCompare 0 artSoccer)).
Proof.
  split; [reflexivity|]. split; [reflexivity|].
  split; [|split; [reflexivity|simpl; lia]].
  change (get (schedule (removeCampAt JS.codeUnitCompare 0 artSoccer)) 0 0)
    with (@nil string).
  discriminate.
Qed.

(** Removing "Ann" from the kids leaves her in the cell she was booked
    into. *)
Lemma remove_ann_stays_in_cell :
  "Ann" ∈ allKids annInArt
  ∧ allKids (removeKid JS.codeUnitCompare "Ann" annInArt) = ["Bo"]
  ∧ "Ann" ∈ get (schedule (removeKid JS.codeUnitCompare "Ann" annInArt)) 0 0.
Proof. split; [compute_done|]. split; [reflexivity|compute_done]. Qed.

Lemma set_then_get_witness :
  let d' := handleScheduleChange (mkCell (Some 0) (Some 0)) ["Ann"] twoCamps in
  (get (schedule d') 0 0 = ["Ann"]
   ∧ get (schedule d') 0 1 = []
   ∧ get (schedule d') 1 0 = []).
Proof.
  pose proof (set_then_get twoCamps 0 0 ["Ann"]) as Hset.
  cbv zeta in *. destruct Hset as (Hget & Hframe & _).
  split; [exact Hget|]. split.
  - destruct (Hframe 0 1) as [_ Hsame]; [discriminate|].
    rewrite Hsame. reflexivity.
  - destruct (Hframe 1 0) as [_ Hsame]; [discriminate|].
    rewrite Hsame. reflexivity.
Defined.

Lemma lists_sorted_and_distinct_witness :
  NoDup (allKids artSoccer)
  ∧ NoDup (allKids (manageList JS.codeUnitCompare allKids_list
                      [TypeItem " Abe "; AddItem; RemoveItem "Bo"] artSoccer))
  ∧ StronglySorted (notAfter JS.codeUnitCompare)
      (allKids (manageList JS.codeUnitCompare allKids_list
                  [TypeItem " Abe "; AddItem; RemoveItem "Bo"] artSoccer)).
Proof.
  assert (NoDup (allKids artSoccer)) as Hnd by compute_done.
  split; [exact Hnd|].
  destruct (lists_sorted_and_distinct JS.codeUnitCompare) as (Hmodal & _).
  destruct (Hmodal allKids_list
              [TypeItem " Abe "; AddItem; RemoveItem "Bo"] artSoccer)
    as [Hsorted Hdistinct].
  split; [exact (Hdistinct Hnd)|exact Hsorted].
Defined.

Lemma summary_first_match_witness :
  0 < weekCount annInArt
  ∧ PrintableSummary annInArt "Bo" !! 0 = Some (mkWeek "Art" ["Ann"]).
Proof.
  assert (0 < weekCount annInArt) as Hweek by (simpl; lia).
  split; [exact Hweek|].
  destruct (summary_first_match annInArt "Bo" 0 Hweek)
    as (entry & Hentry & Hfirst & _).
  rewrite Hentry. f_equal.
  rewrite (Hfirst 0 "Art"); [reflexivity|reflexivity|compute_done|].
  intros c' Hc'. lia.
Defined.

Lemma colour_by_sorted_rank_witness :
  "Bo" ∈ allKids artSoccer
  ∧ getKidColor JS.codeUnitCompare artSoccer "Bo"
    = Some "bg-green-200 text-green-800"
  ∧ getKidColor JS.codeUnitCompare
      (addKid JS.codeUnitCompare "Abe" artSoccer) "Bo"
    = Some "bg-yellow-200 text-yellow-800".
Proof.
  assert ("Bo" ∈ allKids artSoccer) as Hin by compute_done.
  split; [exact Hin|].
  destruct (colour_by_sorted_rank JS.codeUnitCompare artSoccer "Bo" Hin)
    as ((rank & _ & Hidx & Hcolour & Hadd) & _).
  assert (JS.indexOf (JS.sort JS.codeUnitCompare (allKids artSoccer)) "Bo"
          = 1%Z) as Hone by reflexivity.
  rewrite Hone in Hidx. assert (rank = 1) as -> by lia.
  split; [exact Hcolour|].
  destruct (Hadd "Abe" _ ltac:(compute_done) ltac:(compute_done) eq_refl)
    as [Hshift _].
  apply Hshift. reflexivity.
Defined.

Lemma absent_reads_as_empty_witness :
  schedule artSoccer !! key 0 0 = None
  ∧ ScheduleGrid JS.codeUnitCompare
      (set_schedule (<[key 0 0 := []]> (schedule artSoccer)) artSoccer)
    = ScheduleGrid JS.codeUnitCompare artSoccer.
Proof.
  assert (schedule artSoccer !! key 0 0 = None) as Habsent by reflexivity.
  split; [exact Habsent|].
  destruct (absent_reads_as_empty JS.codeUnitCompare artSoccer (key 0 0)
              Habsent) as (Hgrid & _).
  exact Hgrid.
Defined.

Lemma colour_only_for_listed_kids_witness :
  ("Zed" ∉ allKids artSoccer)
  ∧ getKidColor JS.codeUnitCompare artSoccer "Zed" = None.
Proof.
  assert ("Zed" ∉ allKids artSoccer) as Hout by compute_done.
  split; [exact Hout|].
  destruct (colour_only_for_listed_kids JS.codeUnitCompare artSoccer "Zed")
    as [Hnone _].
  destruct (Hnone Hout) as (_ & _ & Hcolour). exact Hcolour.
Defined.

(** * Further properties of the code *)

(** ** Keys and writes of cells *)

Section MoreCellWrites.

Lemma pretty_N_char_isDigit (x : N) : isDigit (pretty_N_char x) = true.
Proof. unfold pretty_N_char. by repeat case_match. Qed.

Lemma pretty_N_go_digits (x : N) (s : string) :
  allUnits isDigit s = true → allUnits isDigit (pretty_N_go x s) = true.
Proof.
  revert s. induction (N.lt_wf_0 x) as [x _ IH]; intros s Hs.
  destruct (decide (x = 0)%N) as [->|Hpos].
  - by rewrite pretty_N_go_0.
  - rewrite pretty_N_go_step by lia. apply IH.
    + apply N.div_lt; lia.
    + simpl. by rewrite pretty_N_char_isDigit.
Qed.

Lemma numberToString_digits (n : nat) :
  allUnits isDigit (JS.numberToString n) = true.
Proof.
  unfold JS.numberToString, pretty, pretty_nat, pretty, pretty_N.
  case_decide; [done|]. by apply pretty_N_go_digits.
Qed.

Lemma null_not_number (n : nat) : "null" ≠ JS.numberToString n.
Proof.
  intros Heq. pose proof (numberToString_digits n) as Hd.
  rewrite <-Heq in Hd. discriminate.
Qed.

(** X1: two cells have the same key only when they are the same cell, and
    the key printed while an index is [null] is the key of no cell. *)
Theorem cell_keys_distinct (c w c' w' : nat) :
  (key c w = key c' w' ↔ c = c' ∧ w = w')
  ∧ cellKey None None ≠ key c' w'
  ∧ cellKey None (Some w) ≠ key c' w'
  ∧ cellKey (Some c) None ≠ key c' w'.
Proof.
  split; [split; [apply key_inj|by intros [-> ->]]|].
  assert (noDash "null") as Hnull by (by repeat split).
  split; [|split]; unfold key, cellKey, indexToString; intros Heq;
    apply split_at_dash in Heq as [H1 H2];
    try apply numberToString_noDash; try done;
    by (eapply null_not_number).
Qed.

(** X2: writes to two different cells give the same document in either
    order, and of two writes to one cell the later one stands. *)
Theorem cell_writes_commute (d : ScheduleDocument) (c w c' w' : nat)
    (a a' : list string) :
  ((c, w) ≠ (c', w') →
     handleScheduleChange (mkCell (Some c') (Some w')) a'
       (handleScheduleChange (mkCell (Some c) (Some w)) a d)
     = handleScheduleChange (mkCell (Some c) (Some w)) a
         (handleScheduleChange (mkCell (Some c') (Some w')) a' d))
  ∧ handleScheduleChange (mkCell (Some c) (Some w)) a'
      (handleScheduleChange (mkCell (Some c) (Some w)) a d)
    = handleScheduleChange (mkCell (Some c) (Some w)) a' d.
Proof.
  unfold handleScheduleChange, set_schedule; simpl. split.
  - intros Hne. f_equal. apply insert_insert_ne.
    fold (key c w) (key c' w'). intros Heq.
    apply key_inj in Heq as [Hc Hw]. congruence.
  - f_equal. apply insert_insert_eq.
Qed.

(** X3: a write made from a snapshot replaces the stored map by the
    snapshot's map with the one cell changed; what the stored map held in
    other cells is discarded.  So when two viewers holding the same
    snapshot write different cells one after the other, the first write is
    gone after the second.  The lists of the stored document are kept. *)
Theorem stale_write_discards_others (view stored : ScheduleDocument)
    (c w : nat) (a : list string) :
  let stored' :=
    commitScheduleChange (mkCell (Some c) (Some w)) a view stored in
  (schedule stored' = <[key c w := a]> (schedule view)
   ∧ (∀ c' w', (c', w') ≠ (c, w) →
        get (schedule stored') c' w' = get (schedule view) c' w')
   ∧ (∀ c0 w0 a0, (c0, w0) ≠ (c, w) →
        get (schedule
               (commitScheduleChange (mkCell (Some c) (Some w)) a view
                  (commitScheduleChange (mkCell (Some c0) (Some w0)) a0
                     view view))) c0 w0
        = get (schedule view) c0 w0)
   ∧ camps stored' = camps stored ∧ allKids stored' = allKids stored).
Proof.
  simpl. unfold commitScheduleChange, handleScheduleChange; simpl.
  fold (key c w).
  assert (∀ c' w', (c', w') ≠ (c, w) →
            get (<[key c w := a]> (schedule view)) c' w'
            = get (schedule view) c' w') as Hframe.
  { intros c' w' Hne. unfold get, attendeesAt.
    rewrite lookup_insert_ne; [done|].
    intros Heq. apply key_inj in Heq as [Hc Hw]. congruence. }
  split; [done|]. split; [done|]. split; [|done].
  intros c0 w0 a0 Hne. by apply Hframe.
Qed.

End MoreCellWrites.

(** ** The list dialog and the onboarding screen *)

Section MoreListEdits.

Context (localeCompare : string → string → Z).

Lemma trim_empty : JS.trim EmptyString = EmptyString.
Proof. reflexivity. Qed.

Lemma truthy_true s : JS.truthy s = true ↔ s ≠ EmptyString.
Proof. unfold JS.truthy. apply bool_decide_eq_true. Qed.

(** Where an entry of the dialog's list can come from. *)
Lemma modalRun_provenance actions st x :
  x ∈ currentItems (foldl (modalStep localeCompare) st actions) →
  x ∈ currentItems st
  ∨ (x ≠ EmptyString
     ∧ (x = JS.trim (newItem st)
        ∨ ∃ text, TypeItem text ∈ actions ∧ x = JS.trim text)).
Proof.
  revert st. induction actions as [|a actions IH]; intros st Hx; [by left|].
  simpl in Hx. apply IH in Hx as [Hx|[Hne [Hx|(text & Hin & Hx)]]].
  - destruct a as [text| |item]; simpl in Hx.
    + by left.
    + unfold handleAddItem in Hx.
      destruct (JS.truthy _ && negb (JS.includes _ _)) eqn:Hguard;
        [|by left].
      apply andb_true_iff in Hguard as [Hblank%truthy_true _].
      simpl in Hx. rewrite elem_of_sort, elem_of_app in Hx.
      destruct Hx as [Hx| ->%list_elem_of_singleton]; [by left|].
      right. split; [done|by left].
    + apply list_elem_of_filter in Hx as [_ Hx]. by left.
  - destruct a as [text| |item]; simpl in Hx.
    + right. split; [done|]. right. exists text.
      split; [apply list_elem_of_here|done].
    + unfold handleAddItem in Hx.
      destruct (JS.truthy _ && negb (JS.includes _ _)) eqn:Hguard.
      * simpl in Hx. by rewrite trim_empty in Hx.
      * right. split; [done|by left].
    + right. split; [done|by left].
  - right. split; [done|]. right. exists text.
    split; [by apply list_elem_of_further|done].
Qed.

Lemma onboardingRun_provenance actions st x :
  x ∈ rosterKids (foldl (onboardingStep localeCompare) st actions) →
  x ∈ rosterKids st
  ∨ (x ≠ EmptyString
     ∧ (x = JS.trim (kidNameInput st)
        ∨ ∃ text, TypeKid text ∈ actions ∧ x = JS.trim text)).
Proof.
  revert st. induction actions as [|a actions IH]; intros st Hx; [by left|].
  simpl in Hx. apply IH in Hx as [Hx|[Hne [Hx|(text & Hin & Hx)]]].
  - destruct a as [text| |name]; simpl in Hx.
    + by left.
    + unfold handleAddKid in Hx.
      destruct (JS.truthy _ && negb (JS.includes _ _)) eqn:Hguard;
        [|by left].
      apply andb_true_iff in Hguard as [Hblank%truthy_true _].
      simpl in Hx. rewrite elem_of_sort, elem_of_app in Hx.
      destruct Hx as [Hx| ->%list_elem_of_singleton]; [by left|].
      right. split; [done|by left].
    + apply list_elem_of_filter in Hx as [_ Hx]. by left.
  - destruct a as [text| |name]; simpl in Hx.
    + right. split; [done|]. right. exists text.
      split; [apply list_elem_of_here|done].
    + unfold handleAddKid in Hx.
      destruct (JS.truthy _ && negb (JS.includes _ _)) eqn:Hguard.
      * simpl in Hx. by rewrite trim_empty in Hx.
      * right. split; [done|by left].
    + right. split; [done|by left].
  - right. split; [done|]. right. exists text.
    split; [by apply list_elem_of_further|done].
Qed.

(** X7: every name a visit to the dialog writes back was in the stored
    list already or is the trimmed, non-empty text of something typed
    during the visit; nothing else gets into [camps] or [allKids]. *)
Theorem dialog_names_provenance (listName : ListName)
    (actions : list ModalAction) (d : ScheduleDocument) (x : string) :
  x ∈ list_field listName (manageList localeCompare listName actions d) →
  x ∈ list_field listName d
  ∨ (x ≠ EmptyString ∧ ∃ text, TypeItem text ∈ actions ∧ x = JS.trim text).
Proof.
  unfold manageList, handleSave. rewrite list_field_handleUpdateList.
  rewrite elem_of_sort. intros Hx.
  apply modalRun_provenance in Hx as [Hx|[Hne [Hx|Hx]]].
  - left. simpl in Hx. by rewrite elem_of_sort in Hx.
  - simpl in Hx. by rewrite trim_empty in Hx.
  - by right.
Qed.

(** X8: the user document written at the end of onboarding lists no
    schedule, and every kid of its roster is the trimmed, non-empty text of
    a name that was typed. *)
Theorem onboarding_roster_provenance (userEmail : string)
    (actions : list OnboardingAction) :
  schedules (onboard localeCompare userEmail actions) = []
  ∧ email (onboard localeCompare userEmail actions) = userEmail
  ∧ ∀ x, x ∈ kids (onboard localeCompare userEmail actions) →
         x ≠ EmptyString ∧ ∃ text, TypeKid text ∈ actions ∧ x = JS.trim text.
Proof.
  split; [done|]. split; [done|]. intros x Hx.
  unfold onboard, handleFinishSetup in Hx. simpl in Hx.
  apply onboardingRun_provenance in Hx as [Hx|[Hne [Hx|Hx]]].
  - by apply elem_of_nil in Hx.
  - simpl in Hx. by rewrite trim_empty in Hx.
  - done.
Qed.

Context `{!ConsistentComparator localeCompare}.

(** X4: [handleUpdateList] stores a sorted rearrangement of the list it is
    given, with the same entries as often as they were given, and touches
    neither the other list nor the assignment map nor the calendar
    fields. *)
Theorem handleUpdateList_rearranges (listName : ListName)
    (newList : list string) (d : ScheduleDocument) :
  let d' := handleUpdateList localeCompare listName newList d in
  (list_field listName d' ≡ₚ newList
   ∧ StronglySorted (notAfter localeCompare) (list_field listName d')
   ∧ (StronglySorted (notAfter localeCompare) newList →
      list_field listName d' = newList)
   ∧ (listName = camps_list → allKids d' = allKids d)
   ∧ (listName = allKids_list → camps d' = camps d)
   ∧ schedule d' = schedule d
   ∧ kidName d' = kidName d ∧ ownerId d' = ownerId d
   ∧ startDate d' = startDate d ∧ weekCount d' = weekCount d).
Proof.
  simpl. rewrite list_field_handleUpdateList.
  split; [apply sort_perm|]. split; [apply sort_sorted; apply _|].
  split; [apply sort_id|]. by destruct listName.
Qed.

Lemma handleUpdateList_twice listName l l' d :
  handleUpdateList localeCompare listName l
    (handleUpdateList localeCompare listName l' d)
  = handleUpdateList localeCompare listName l d.
Proof. by destruct listName. Qed.

Lemma handleUpdateList_same listName l d :
  JS.sort localeCompare l = list_field listName d →
  handleUpdateList localeCompare listName l d = d.
Proof.
  intros Hl. destruct listName, d; simpl in *;
    unfold handleUpdateList, set_camps, set_allKids; simpl; by rewrite Hl.
Qed.

Lemma handleUpdateList_sort listName l d :
  handleUpdateList localeCompare listName (JS.sort localeCompare l) d
  = handleUpdateList localeCompare listName l d.
Proof. unfold handleUpdateList. by rewrite sort_sort by apply _. Qed.

(** X5: saving is idempotent: a visit to the dialog in which nothing is
    done, right after any visit, leaves the document as that visit left
    it; and on a document whose list is sorted it changes nothing. *)
Theorem save_without_edit (listName : ListName)
    (actions : list ModalAction) (d : ScheduleDocument) :
  manageList localeCompare listName []
    (manageList localeCompare listName actions d)
  = manageList localeCompare listName actions d
  ∧ (StronglySorted (notAfter localeCompare) (list_field listName d) →
     manageList localeCompare listName [] d = d).
Proof.
  split.
  - unfold manageList, handleSave. simpl.
    rewrite list_field_handleUpdateList, handleUpdateList_twice.
    by rewrite !handleUpdateList_sort.
  - intros Hsorted. unfold manageList, handleSave. simpl.
    apply handleUpdateList_same. rewrite sort_sort by apply _.
    by apply sort_id.
Qed.

(** X6: in the dialog, adding a new name and then removing it gives back
    the list as it was shown; the add clears the input box and puts
    exactly the trimmed text into the list. *)
Theorem add_then_remove_restores (st : ManagementModal) :
  StronglySorted (notAfter localeCompare) (currentItems st) →
  JS.trim (newItem st) ≠ EmptyString →
  JS.trim (newItem st) ∉ currentItems st →
  currentItems
    (handleRemoveItem (JS.trim (newItem st)) (handleAddItem localeCompare st))
  = currentItems st
  ∧ newItem (handleAddItem localeCompare st) = EmptyString
  ∧ (∀ x, x ∈ currentItems (handleAddItem localeCompare st)
          ↔ x ∈ currentItems st ∨ x = JS.trim (newItem st)).
Proof.
  intros Hsorted Hblank Hnew. unfold handleAddItem, JS.truthy, JS.includes.
  rewrite bool_decide_eq_true_2 by done.
  rewrite bool_decide_eq_false_2 by done. simpl.
  split; [|split; [done|]].
  - rewrite filter_sort, filter_app by apply _.
    rewrite filter_ne_notin by done.
    rewrite filter_cons_False, filter_nil by (intros Hne; by apply Hne).
    rewrite app_nil_r. by apply sort_id.
  - intros x. by rewrite elem_of_sort, elem_of_app, list_elem_of_singleton.
Qed.

End MoreListEdits.

(** ** Trimming *)

Section Trimming.

Implicit Types (s t u : string) (c : ascii).

Lemma app_cons_s c s t : String c s +:+ t = String c (s +:+ t).
Proof. reflexivity. Qed.

Lemma app_nil_r_s s : s +:+ EmptyString = s.
Proof. induction s as [|c s IH]; [done|]. by rewrite app_cons_s, IH. Qed.

Lemma app_assoc_s s t u : (s +:+ t) +:+ u = s +:+ (t +:+ u).
Proof. induction s as [|c s IH]; [done|]. by rewrite !app_cons_s, IH. Qed.

Lemma rev_app_spec s t : String.rev_app s t = String.rev s +:+ t.
Proof.
  unfold String.rev. revert t. induction s as [|c s IH]; intros t; [done|].
  simpl. rewrite (IH (String c t)), (IH (String c EmptyString)).
  by rewrite app_assoc_s.
Qed.

Lemma rev_cons c s : String.rev (String c s) = String.rev s +:+ String c "".
Proof. unfold String.rev at 1. simpl. apply rev_app_spec. Qed.

Lemma rev_app_distr s t :
  String.rev (s +:+ t) = String.rev t +:+ String.rev s.
Proof.
  induction s as [|c s IH]; [by rewrite app_nil_r_s|].
  by rewrite app_cons_s, !rev_cons, IH, app_assoc_s.
Qed.

Lemma rev_rev s : String.rev (String.rev s) = s.
Proof.
  induction s as [|c s IH]; [done|].
  by rewrite rev_cons, rev_app_distr, IH.
Qed.

Lemma allUnits_app p s t :
  allUnits p (s +:+ t) = allUnits p s && allUnits p t.
Proof.
  induction s as [|c s IH]; [done|].
  rewrite app_cons_s. simpl. by rewrite IH, andb_assoc.
Qed.

Lemma allUnits_rev p s : allUnits p (String.rev s) = allUnits p s.
Proof.
  induction s as [|c s IH]; [done|].
  rewrite rev_cons, allUnits_app, IH. simpl.
  by rewrite andb_true_r, andb_comm.
Qed.

Lemma lastUnit_snoc s c : lastUnit (s +:+ String c "") = Some c.
Proof.
  induction s as [|a s IH]; [done|].
  rewrite app_cons_s. simpl. rewrite IH. by destruct (s +:+ String c "").
Qed.

Lemma lastUnit_rev s : lastUnit (String.rev s) = firstUnit s.
Proof. destruct s as [|c s]; [done|]. by rewrite rev_cons, lastUnit_snoc. Qed.

Lemma firstUnit_rev s : firstUnit (String.rev s) = lastUnit s.
Proof. by rewrite <-lastUnit_rev, rev_rev. Qed.

Lemma trimStart_split s :
  ∃ l, s = l +:+ JS.trimStart s ∧ allUnits JS.isWhiteSpace l = true.
Proof.
  induction s as [|c s (l & Hl & Hws)]; [by exists EmptyString|].
  simpl. destruct (JS.isWhiteSpace c) eqn:Hc.
  - exists (String c l). rewrite app_cons_s, <-Hl. simpl. by rewrite Hc.
  - by exists EmptyString.
Qed.

Lemma trimStart_first s c :
  firstUnit (JS.trimStart s) = Some c → JS.isWhiteSpace c = false.
Proof.
  induction s as [|a s IH]; [done|]. simpl.
  destruct (JS.isWhiteSpace a) eqn:Ha; [done|]. simpl. by intros [= <-].
Qed.

Lemma trimStart_id s :
  (∀ c, firstUnit s = Some c → JS.isWhiteSpace c = false) →
  JS.trimStart s = s.
Proof.
  destruct s as [|a s]; [done|]. intros Hfirst. simpl.
  by rewrite (Hfirst a).
Qed.

Lemma trimStart_last s c :
  lastUnit s = Some c → JS.isWhiteSpace c = false →
  lastUnit (JS.trimStart s) = Some c.
Proof.
  intros Hlast Hc. induction s as [|a s IH]; [done|]. simpl.
  destruct (JS.isWhiteSpace a) eqn:Ha; [|done].
  destruct s as [|b s]; [simpl in Hlast; congruence|]. by apply IH.
Qed.

Lemma trimEnd_split u :
  ∃ r, u = JS.trimEnd u +:+ r ∧ allUnits JS.isWhiteSpace r = true.
Proof.
  destruct (trimStart_split (String.rev u)) as (l & Hl & Hws).
  exists (String.rev l). split; [|by rewrite allUnits_rev].
  unfold JS.trimEnd. rewrite <-rev_app_distr, <-Hl. by rewrite rev_rev.
Qed.


End Trimming.

(** ** Creating schedules *)

Section MoreDashboard.

Implicit Types (st : Store) (fraction : list nat).

Lemma arrayUnion_elem l x y : y ∈ arrayUnion l x ↔ y ∈ l ∨ y = x.
Proof.
  unfold arrayUnion, JS.includes. case_bool_decide as Hx.
  - split; [by left|]. by intros [?| ->].
  - by rewrite elem_of_app, list_elem_of_singleton.
Qed.

Lemma NoDup_arrayUnion l x : NoDup l → NoDup (arrayUnion l x).
Proof.
  intros Hl. unfold arrayUnion, JS.includes. case_bool_decide as Hx; [done|].
  apply NoDup_app. split; [done|]. split; [|apply NoDup_singleton].
  intros y Hy ->%list_elem_of_singleton. done.
Qed.

(** Once a user lists an identifier, a later creation keeps it listed. *)
Lemma handleCreateSchedule_keeps_listed fraction uid kid st uid0 u id :
  userDocs st !! uid0 = Some u → id ∈ schedules u →
  ∃ u', userDocs (handleCreateSchedule fraction uid kid st) !! uid0 = Some u'
        ∧ id ∈ schedules u'.
Proof.
  intros Hu Hid. unfold handleCreateSchedule. simpl.
  destruct (decide (uid = uid0)) as [->|Hne].
  - rewrite lookup_alter_eq, Hu. simpl. eexists. split; [done|].
    simpl. apply arrayUnion_elem. by left.
  - rewrite lookup_alter_ne by done. by exists u.
Qed.



Lemma substring_0_digits36 n ds :
  String.substring 0 n (JS.digits36 ds) = JS.digits36 (take n ds).
Proof.
  revert ds. induction n as [|n IH]; intros [|d ds]; simpl; try done.
  by rewrite IH.
Qed.

(** X12: an identifier is made of digits and capital letters, has six
    code units at most, and depends on the first six printed digits only,
    so two draws that agree on those give the same identifier. *)
Theorem schedule_id_shape fraction :
  Forall (λ d, d < 36) fraction →
  allUnits upperAlnum (newScheduleId fraction) = true
  ∧ String.length (newScheduleId fraction) ≤ 6
  ∧ newScheduleId fraction = newScheduleId (take 6 fraction)
  ∧ (∀ other, take 6 other = take 6 fraction → other ≠ [] →
       fraction ≠ [] → newScheduleId other = newScheduleId fraction).
Proof.
  intros Hds. split; [by apply newScheduleId_alphabet|].
  split; [rewrite length_newScheduleId; lia|].
  assert (∀ f, f ≠ [] →
            newScheduleId f
            = JS.toUpperCase (JS.digits36 (take 6 f))) as Hid.
  { intros [|d ds] Hne; [done|]. unfold newScheduleId.
    change (JS.substring 2 8 (JS.fractionToString36 (d :: ds)))
      with (String.substring 0 6 (JS.digits36 (d :: ds))).
    by rewrite substring_0_digits36. }
  split.
  - destruct fraction as [|d ds]; [done|].
    rewrite (Hid (d :: ds)) by done.
    rewrite (Hid (take 6 (d :: ds))) by done.
    by rewrite take_take.
  - intros other Htake Hother Hne. by rewrite !Hid, Htake.
Qed.

End MoreDashboard.

(** ** What the views show *)

Section MoreViews.

Context (localeCompare : string → string → Z).

Implicit Types (m : gmap string (list string)) (d : ScheduleDocument).

Lemma getKidColor_unlisted d kid :
  kid ∉ allKids d → getKidColor localeCompare d kid = None.
Proof.
  intros Hout. unfold getKidColor.
  rewrite indexOf_notin by (by rewrite elem_of_sort). done.
Qed.

Lemma getKidColor_listed d kid :
  kid ∈ allKids d →
  ∃ colour, getKidColor localeCompare d kid = Some colour
            ∧ colour ∈ kidColors.
Proof.
  intros Hin. apply (elem_of_sort localeCompare) in Hin.
  apply indexOf_in in Hin as [[Hlo _] _]. unfold getKidColor.
  set (idx := JS.indexOf _ _) in *.
  rewrite <-(Z2Nat.id idx) by done.
  rewrite kidColors_length, (remainder_nat _ 8) by lia.
  rewrite at_index_nat.
  destruct (lookup_lt_is_Some_2 kidColors (Z.to_nat idx mod 8))
    as [colour Hcolour].
  { rewrite kidColors_length. apply Nat.mod_upper_bound. lia. }
  exists colour. split; [done|]. by eapply list_elem_of_lookup_2.
Qed.

(** X13: the grid has one row per camp, in the order of [camps], and one
    cell per week in each row; the cell in row [c], column [w] carries one
    chip per entry of [get c w], in that order, and shows the plus sign
    exactly when that list is empty. *)
Theorem grid_shows_cells d :
  length (ScheduleGrid localeCompare d) = length (camps d)
  ∧ ∀ c camp w,
      camps d !! c = Some camp → w < weekCount d →
      ∃ cells cell,
        ScheduleGrid localeCompare d !! c = Some (camp, cells)
        ∧ length cells = weekCount d
        ∧ cells !! w = Some cell
        ∧ (chips cell).*1 = get (schedule d) c w
        ∧ (showPlus cell = true ↔ get (schedule d) c w = []).
Proof.
  unfold ScheduleGrid. split; [apply length_imap|].
  intros c camp w Hc Hw. eexists _, (gridCell localeCompare d c w).
  split; [by rewrite list_lookup_imap, Hc|].
  split; [by rewrite length_fmap, length_seq|].
  split; [by rewrite list_lookup_fmap, lookup_seq_lt|].
  unfold gridCell, get. simpl. split.
  - rewrite <-list_fmap_compose. apply list_fmap_id.
  - rewrite bool_decide_eq_true. apply length_zero_iff_nil.
Qed.

(** X15: a chip is drawn for a name of the cell's list; it has a colour of
    the palette when the name is in [allKids], and no colour at all when
    it is not, as for a kid who was removed from the list but not from the
    cell. *)
Theorem chip_colours d (c w : nat) (kid : string) (colour : option string) :
  (kid, colour) ∈ chips (gridCell localeCompare d c w) →
  kid ∈ get (schedule d) c w
  ∧ (colour = None ↔ kid ∉ allKids d)
  ∧ (∀ token, colour = Some token → token ∈ kidColors ∧ kid ∈ allKids d).
Proof.
  unfold gridCell. simpl. intros (k & [= -> ->] & Hk)%list_elem_of_fmap.
  split; [done|]. destruct (decide (k ∈ allKids d)) as [Hin|Hout].
  - destruct (getKidColor_listed d k Hin) as (token & -> & Htoken).
    split; [split; [done|by intros ?]|]. by intros ? [= <-].
  - rewrite (getKidColor_unlisted d k Hout). split; [done|]. by intros ?.
Qed.

Lemma findCamp_ext_range m1 m2 kid w c0 rest :
  (∀ j, j < length rest →
        attendeesAt m1 (key (c0 + j) w) = attendeesAt m2 (key (c0 + j) w)) →
  findCamp m1 kid w c0 rest = findCamp m2 kid w c0 rest.
Proof.
  revert c0. induction rest as [|camp rest IH]; intros c0 Hsame; [done|].
  simpl. specialize (Hsame 0) as H0. rewrite Nat.add_0_r in H0.
  rewrite H0 by (simpl; lia). rewrite IH; [done|].
  intros j Hj. replace (S c0 + j) with (c0 + S j) by lia.
  apply Hsame. simpl. lia.
Qed.

(** X14: an entry of the map whose camp index is not below the number of
    camps, or whose week index is not below [weekCount], is shown nowhere:
    writing such a cell changes neither the grid nor any kid's summary. *)
Theorem out_of_range_cells_invisible d (c w : nat) (a : list string) :
  length (camps d) ≤ c ∨ weekCount d ≤ w →
  ScheduleGrid localeCompare
    (handleScheduleChange (mkCell (Some c) (Some w)) a d)
  = ScheduleGrid localeCompare d
  ∧ ∀ kid,
      PrintableSummary (handleScheduleChange (mkCell (Some c) (Some w)) a d)
        kid
      = PrintableSummary d kid.
Proof.
  intros Hout.
  assert (∀ c' w', c' < length (camps d) → w' < weekCount d →
            attendeesAt (<[key c w := a]> (schedule d)) (key c' w')
            = attendeesAt (schedule d) (key c' w')) as Hsame.
  { intros c' w' Hc' Hw'. unfold attendeesAt.
    rewrite lookup_insert_ne; [done|].
    intros Heq. apply key_inj in Heq as [-> ->]. lia. }
  unfold handleScheduleChange. simpl. fold (key c w). split.
  - unfold ScheduleGrid. simpl. apply imap_ext. intros c' camp Hc'.
    apply lookup_lt_Some in Hc'. f_equal.
    apply list_fmap_ext. intros i w' [-> Hw']%lookup_seq.
    unfold gridCell. simpl. by rewrite Hsame.
  - intros kid. unfold PrintableSummary. simpl.
    apply list_fmap_ext. intros i w' [-> Hw']%lookup_seq.
    unfold weekSummary. simpl. apply findCamp_ext_range.
    intros j Hj. by apply Hsame.
Qed.

Lemma findCamp_cases m kid w c0 rest :
  findCamp m kid w c0 rest = mkWeek "No camp this week!" []
  ∨ ∃ j camp,
      rest !! j = Some camp
      ∧ kid ∈ attendeesAt m (key (c0 + j) w)
      ∧ findCamp m kid w c0 rest
        = mkWeek camp
            (filter (λ name, name ≠ kid) (attendeesAt m (key (c0 + j) w))).
Proof.
  revert c0. induction rest as [|camp rest IH]; intros c0; [by left|].
  simpl. destruct (JS.includes _ kid) eqn:Hinc.
  - right. exists 0, camp. rewrite Nat.add_0_r.
    split; [done|]. split; [by apply includes_true|done].
  - destruct (IH (S c0)) as [Hnone|(j & camp' & Hj & Hin & Heq)];
      [by left|].
    right. exists (S j), camp'.
    replace (c0 + S j) with (S c0 + j) by lia. done.
Qed.

(** X16: the summary has one entry per week; an entry never counts the kid
    among its own friends, and it is either the "no camp" entry or names a
    camp of [camps] whose cell for that week lists the kid, with the other
    names of that cell as friends. *)
Theorem summary_entries d (kid : string) :
  length (PrintableSummary d kid) = weekCount d
  ∧ ∀ w entry,
      PrintableSummary d kid !! w = Some entry →
      (kid ∉ friends entry)
      ∧ (entry = mkWeek "No camp this week!" []
         ∨ ∃ c, camps d !! c = Some (kidCamp entry)
                ∧ kid ∈ get (schedule d) c w
                ∧ friends entry
                  = filter (λ name, name ≠ kid) (get (schedule d) c w)).
Proof.
  split; [apply length_PrintableSummary|].
  intros w entry. unfold PrintableSummary.
  rewrite list_lookup_fmap.
  destruct (seq 0 (weekCount d) !! w) as [w'|] eqn:Hw; [|done].
  apply lookup_seq in Hw as [-> _]. simpl. intros [= <-].
  unfold weekSummary.
  destruct (findCamp_cases (schedule d) kid w 0 (camps d))
    as [->|(c & camp & Hc & Hin & ->)]; simpl.
  - split; [by intros ?%elem_of_nil|by left].
  - split; [|right; by exists c].
    rewrite list_elem_of_filter. by intros [Hne _].
Qed.

Lemma Set_new_from_elem s l x :
  x ∈ foldl (λ s x, JS.Set_add x s) s l ↔ x ∈ s ∨ x ∈ l.
Proof.
  revert s. induction l as [|y l IH]; intros s; simpl.
  - split; [by left|]. by intros [?|?%elem_of_nil].
  - rewrite IH, elem_of_cons. unfold JS.Set_add, JS.Set_has.
    case_bool_decide as Hy.
    + split; [intros [?|?]; auto|]. intros [?|[->|?]]; auto.
    + rewrite elem_of_app, list_elem_of_singleton.
      split; [intros [[?|?]|?]; auto|]. intros [?|[?|?]]; auto.
Qed.

Lemma Set_new_elem l x : x ∈ JS.Set_new l ↔ x ∈ l.
Proof.
  unfold JS.Set_new. rewrite Set_new_from_elem.
  split; [by intros [?%elem_of_nil|?]|by right].
Qed.

(** X17: a closed cell editor shows nothing.  An open one has one checkbox
    per kid of [allKids], in sorted order, ticked exactly for the kids in
    the cell's list; its selection holds the names of that list, each
    once; and its heading names the camp at the cell's index. *)
Theorem edit_modal_view d (c w : nat) :
  EditScheduleModal localeCompare (mkProps false (mkCell (Some c) (Some w))) d
  = None
  ∧ ∃ view,
      EditScheduleModal localeCompare
        (mkProps true (mkCell (Some c) (Some w))) d = Some view
      ∧ heading view = camps d !! c
      ∧ (checkboxes view).*1 = JS.sort localeCompare (allKids d)
      ∧ (∀ kid ticked, (kid, ticked) ∈ checkboxes view →
           (ticked = true ↔ kid ∈ get (schedule d) c w))
      ∧ NoDup (selectedKids view)
      ∧ (∀ x, x ∈ selectedKids view ↔ x ∈ get (schedule d) c w).
Proof.
  split; [done|]. unfold EditScheduleModal. simpl. eexists.
  split; [done|]. simpl. fold (key c w). fold (get (schedule d) c w).
  split; [done|]. split; [|split; [|split]].
  - rewrite <-list_fmap_compose. apply list_fmap_id.
  - intros kid ticked (k & [= -> ->] & _)%list_elem_of_fmap.
    unfold JS.Set_has. by rewrite bool_decide_eq_true, Set_new_elem.
  - apply NoDup_Set_new.
  - apply Set_new_elem.
Qed.

End MoreViews.

(** ** Editing a cell with the checkboxes *)

Section MoreToggles.

Implicit Types (s cur toggles : list string) (x kid : string).

Lemma handleCheckboxChange_elem kid s x :
  x ∈ handleCheckboxChange kid s
  ↔ (x ≠ kid ∧ x ∈ s) ∨ (x = kid ∧ kid ∉ s).
Proof.
  unfold handleCheckboxChange, JS.Set_delete, JS.Set_add, JS.Set_has.
  case_bool_decide as Hk.
  - rewrite list_elem_of_filter. split.
    + intros [Hne Hx]. by left.
    + intros [[Hne Hx]|[-> Hout]]; done.
  - rewrite elem_of_app, list_elem_of_singleton.
    split.
    + intros [Hx| ->]; [|by right]. left. split; [|done]. by intros ->.
    + intros [[_ Hx]|[-> _]]; [by left|by right].
Qed.

(** Run of the toggles from any selection: a name ends up selected when it
    was selected and toggled an even number of times, or was not and
    toggled an odd number of times. *)
Lemma toggles_elem toggles s x :
  let n := length (filter (λ y, y = x) toggles) in
  x ∈ foldl (λ s kid, handleCheckboxChange kid s) s toggles
  ↔ (x ∈ s ∧ Nat.Even n) ∨ ((x ∉ s) ∧ Nat.Odd n).
Proof.
  revert s. induction toggles as [|k toggles IH]; intros s; simpl.
  - split.
    + intros Hx. left. split; [done|]. by exists 0.
    + intros [[Hx _]|[_ [k Hk]]]; [done|lia].
  - simpl in IH. rewrite IH, !handleCheckboxChange_elem.
    rewrite filter_cons. destruct (decide (k = x)) as [->|Hne]; simpl.
    + rewrite Nat.Even_succ, Nat.Odd_succ.
      destruct (decide (x ∈ s)) as [Hin|Hout].
      * split.
        -- intros [[[[? _]|[_ ?]] _]|[_ Hodd]]; [done|done|]. by left.
        -- intros [[_ Hodd]|[? _]]; [|done]. right. split; [|done].
           intros [[? _]|[_ ?]]; done.
      * split.
        -- intros [[_ Heven]|[Hnot _]]; [by right|].
           destruct Hnot. by right.
        -- intros [[? _]|[_ Heven]]; [done|]. left. split; [|done].
           by right.
    + split.
      * intros [[[[_ Hx]|[-> _]] Heven]|[Hnot Hodd]]; [by left|done|].
        right. split; [|done]. intros Hx. apply Hnot. left.
        split; [|done]. by intros ->.
      * intros [[Hx Heven]|[Hout Hodd]].
        -- left. split; [|done]. left. split; [|done]. by intros ->.
        -- right. split; [|done]. intros [[_ Hx]|[-> _]]; done.
Qed.

(** X18: the list handed over on save holds exactly the names that were in
    the cell and had their box toggled an even number of times, and the
    names that were not in the cell and had it toggled an odd number of
    times. *)
Theorem toggles_parity cur toggles x :
  let n := length (filter (λ y, y = x) toggles) in
  x ∈ submittedAttendees cur toggles
  ↔ (x ∈ cur ∧ Nat.Even n) ∨ ((x ∉ cur) ∧ Nat.Odd n).
Proof.
  cbv zeta. unfold submittedAttendees, JS.Array_from.
  pose proof (toggles_elem toggles (JS.Set_new cur) x) as Hrun.
  cbv zeta in Hrun. rewrite Hrun. by rewrite Set_new_elem.
Qed.

Lemma Set_new_from_NoDup s l :
  NoDup (s ++ l) → foldl (λ s x, JS.Set_add x s) s l = s ++ l.
Proof.
  revert s. induction l as [|y l IH]; intros s Hnd; simpl.
  - by rewrite app_nil_r.
  - assert (y ∉ s) as Hy.
    { apply NoDup_app in Hnd as (_ & Hdisj & _). intros Hin.
      apply (Hdisj y Hin). apply list_elem_of_here. }
    unfold JS.Set_add at 2. unfold JS.Set_has.
    rewrite bool_decide_eq_false_2 by done.
    rewrite IH; [by rewrite <-app_assoc|]. by rewrite <-app_assoc.
Qed.

Lemma Set_new_NoDup l : NoDup l → JS.Set_new l = l.
Proof. intros Hl. unfold JS.Set_new. by rewrite Set_new_from_NoDup. Qed.

(** X20: opening the editor on a cell and saving without touching a box
    leaves every cell reading as before, when the cell's list has no name
    twice; the grid and every summary are unchanged, whether or not the
    cell had an entry in the map. *)
Theorem save_untouched_cell (localeCompare : string → string → Z)
    (d : ScheduleDocument) (c w : nat) :
  NoDup (get (schedule d) c w) →
  let d' := docStep localeCompare d (EditCell c w []) in
  ((∀ c' w', get (schedule d') c' w' = get (schedule d) c' w')
   ∧ ScheduleGrid localeCompare d' = ScheduleGrid localeCompare d
   ∧ (∀ kid, PrintableSummary d' kid = PrintableSummary d kid)).
Proof.
  intros Hnd. cbv zeta. unfold docStep, submittedAttendees, JS.Array_from.
  simpl. fold (get (schedule d) c w). rewrite Set_new_NoDup by done.
  unfold handleScheduleChange. simpl. fold (key c w).
  assert (∀ k, attendeesAt (<[key c w := get (schedule d) c w]> (schedule d)) k
               = attendeesAt (schedule d) k) as Hsame.
  { intros k. unfold attendeesAt. destruct (decide (key c w = k)) as [<-|Hne].
    - by rewrite lookup_insert_eq.
    - by rewrite lookup_insert_ne. }
  split; [intros c' w'; apply Hsame|].
  destruct (readers_ext localeCompare d _ Hsame) as (Hgrid & Hsum & _).
  done.
Qed.

Lemma filter_eq_notin x l : x ∉ l → filter (λ y, y = x) l = [].
Proof.
  induction l as [|y l IH]; [done|].
  intros [Hne Hout]%not_elem_of_cons.
  rewrite filter_cons_False by (by intros ->). by apply IH.
Qed.

(** X19: a name that sits in a cell but is no longer in [allKids] cannot
    be taken out with the editor: the editor has boxes for the kids of
    [allKids] only, and after any run of toggles on those the name is
    still in the cell. *)
Theorem unlisted_name_survives_edits (localeCompare : string → string → Z)
    (d : ScheduleDocument) (c w : nat) (toggles : list string) (x : string) :
  x ∈ get (schedule d) c w →
  x ∉ allKids d →
  (∀ kid, kid ∈ toggles → kid ∈ allKids d) →
  x ∈ get (schedule (docStep localeCompare d (EditCell c w toggles))) c w.
Proof.
  intros Hin Hout Hboxes. unfold docStep.
  rewrite get_handleScheduleChange.
  fold (get (schedule d) c w). unfold submittedAttendees, JS.Array_from.
  pose proof (toggles_elem toggles (JS.Set_new (get (schedule d) c w)) x)
    as Hrun.
  cbv zeta in Hrun. apply Hrun. left.
  split; [by apply Set_new_elem|].
  rewrite filter_eq_notin; [by exists 0|].
  intros Htoggled. by apply Hout, Hboxes.
Qed.

End MoreToggles.

(** ** Rows against camp names *)

Section MoreDesync.

Context (localeCompare : string → string → Z).
Context `{!ConsistentComparator localeCompare}.

Lemma filter_ne_delete (l : list string) (i : nat) (x : string) :
  NoDup l → l !! i = Some x → filter (λ y, y ≠ x) l = delete i l.
Proof.
  revert i. induction l as [|y l IH]; intros i Hnd Hi; [done|].
  apply NoDup_cons in Hnd as [Hy Hnd]. destruct i as [|i]; simpl in *.
  - injection Hi as ->. rewrite filter_cons_False by (intros Hne; by apply Hne).
    by apply filter_ne_notin.
  - rewrite filter_cons_True.
    + by rewrite (IH i).
    + intros ->. apply Hy. by eapply list_elem_of_lookup_2.
Qed.

Lemma gridCell_set_camps l d r w :
  gridCell localeCompare (set_camps l d) r w = gridCell localeCompare d r w.
Proof. reflexivity. Qed.

(** X21: on a plan whose camps are stored sorted and without duplicates,
    removing the camp at index [i] deletes that name from the list while
    every grid cell keeps its content under its old indices.  The rows
    below [i] keep their names; each later row of cells now stands under
    the name of the camp that used to follow it. *)
Theorem remove_camp_shifts_names (d : ScheduleDocument) (i : nat)
    (camp : string) :
  StronglySorted (notAfter localeCompare) (camps d) →
  NoDup (camps d) →
  camps d !! i = Some camp →
  let d' := removeCampAt localeCompare i d in
  (camps d' = delete i (camps d)
   ∧ (∀ r, r < i → camps d' !! r = camps d !! r)
   ∧ (∀ r, i ≤ r → camps d' !! r = camps d !! S r)
   ∧ (∀ r w, gridCell localeCompare d' r w = gridCell localeCompare d r w)).
Proof.
  intros Hsorted Hnd Hi. cbv zeta.
  assert (JS.sort localeCompare (camps d) = camps d) as Hid
    by (by apply sort_id).
  assert (removeCampAt localeCompare i d
          = set_camps (delete i (camps d)) d) as ->.
  { unfold removeCampAt. rewrite Hid, Hi.
    unfold manageList, handleSave, handleUpdateList. simpl. rewrite Hid.
    f_equal. rewrite (filter_ne_delete _ i) by done.
    apply sort_id. rewrite <-(filter_ne_delete _ i camp) by done.
    by apply StronglySorted_filter. }
  simpl. split; [done|].
  split; [intros r Hr; by apply list_lookup_delete_lt|].
  split; [intros r Hr; by apply list_lookup_delete_ge|done].
Qed.

(** X22: on a plan whose camps are stored sorted, adding a new camp puts
    its name in at its sorted position while every grid cell keeps its
    content under its old indices.  The names before that position stay
    with their rows; the new camp takes over the row of cells at its
    position, and each later name moves one row of cells down. *)
Theorem add_camp_shifts_names (d : ScheduleDocument) (text : string) :
  StronglySorted (notAfter localeCompare) (camps d) →
  JS.trim text ≠ EmptyString →
  JS.trim text ∉ camps d →
  ∃ pre post,
    camps d = pre ++ post
    ∧ camps (addCamp localeCompare text d) = pre ++ JS.trim text :: post
    ∧ (∀ r, r < length pre →
         camps (addCamp localeCompare text d) !! r = camps d !! r)
    ∧ (∀ r, length pre ≤ r →
         camps (addCamp localeCompare text d) !! S r = camps d !! r)
    ∧ (∀ r w, gridCell localeCompare (addCamp localeCompare text d) r w
              = gridCell localeCompare d r w).
Proof.
  intros Hsorted Hblank Hnew.
  assert (JS.sort localeCompare (camps d) = camps d) as Hid
    by (by apply sort_id).
  destruct (sorted_after_add localeCompare (camps d) (JS.trim text) Hnew)
    as (pre & post & Hafter & Hbefore & _).
  rewrite Hid in Hafter, Hbefore.
  exists pre, post. split; [done|].
  assert (addCamp localeCompare text d
          = set_camps (pre ++ JS.trim text :: post) d) as ->.
  { unfold addCamp, manageList, handleSave, handleUpdateList. simpl.
    unfold handleAddItem. simpl. rewrite Hid.
    unfold JS.truthy, JS.includes.
    rewrite bool_decide_eq_true_2 by done.
    rewrite bool_decide_eq_false_2 by done. simpl.
    f_equal. rewrite sort_sort by apply _. done. }
  simpl. split; [done|]. rewrite Hbefore.
  split; [|split; [|done]].
  - intros r Hr. by rewrite !lookup_app_l.
  - intros r Hr. rewrite (lookup_app_r pre post) by done.
    rewrite (lookup_app_r pre) by lia.
    by replace (S r - length pre) with (S (r - length pre)) by lia.
Qed.

End MoreDesync.

(** ** Edits of the kids list against the views *)

Section MoreKidEdits.

Context (localeCompare : string → string → Z).

(** X23: a visit to the kids dialog changes no summary and no name shown
    in the grid: every cell lists the same names and shows the plus sign
    as before, also for kids that were just removed; the rows and the
    number of weeks stay, and only the chips' colours can differ. *)
Theorem kid_edits_keep_bookings (d : ScheduleDocument)
    (actions : list ModalAction) :
  let d' := manageList localeCompare allKids_list actions d in
  ((∀ kid, PrintableSummary d' kid = PrintableSummary d kid)
   ∧ (∀ c w, (chips (gridCell localeCompare d' c w)).*1
             = (chips (gridCell localeCompare d c w)).*1
             ∧ showPlus (gridCell localeCompare d' c w)
               = showPlus (gridCell localeCompare d c w))
   ∧ (ScheduleGrid localeCompare d').*1 = (ScheduleGrid localeCompare d).*1
   ∧ camps d' = camps d ∧ weekCount d' = weekCount d).
Proof.
  cbv zeta. split; [done|]. split; [|split; [|done]].
  - intros c w. unfold gridCell. simpl. split; [|done].
    by rewrite <-!list_fmap_compose.
  - unfold ScheduleGrid. simpl. apply list_eq. intros r.
    rewrite !list_lookup_fmap, !list_lookup_imap.
    by destruct (camps d !! r).
Qed.

End MoreKidEdits.

(** ** The further properties on the example documents *)

Lemma cell_keys_distinct_witness : key 1 10 ≠ key 11 0.
Proof.
  intros Heq. destruct (cell_keys_distinct 1 10 11 0) as [[Hinj _] _].
  destruct (Hinj Heq) as [Hc _]. discriminate.
Defined.

Lemma cell_writes_commute_witness :
  handleScheduleChange (mkCell (Some 1) (Some 1)) ["Bo"]
    (handleScheduleChange (mkCell (Some 0) (Some 0)) ["Ann"] twoCamps)
  = handleScheduleChange (mkCell (Some 0) (Some 0)) ["Ann"]
      (handleScheduleChange (mkCell (Some 1) (Some 1)) ["Bo"] twoCamps).
Proof.
  destruct (cell_writes_commute twoCamps 0 0 1 1 ["Ann"] ["Bo"])
    as [Hcommute _].
  apply Hcommute. discriminate.
Defined.

(** Ann's booking, written first, is gone after Bo's viewer writes from the
    snapshot it still holds. *)
Lemma stale_write_discards_others_witness :
  get (schedule
         (commitScheduleChange (mkCell (Some 1) (Some 1)) ["Bo"] twoCamps
            (commitScheduleChange (mkCell (Some 0) (Some 0)) ["Ann"]
               twoCamps twoCamps))) 0 0
  = [].
Proof.
  pose proof (stale_write_discards_others twoCamps twoCamps 1 1 ["Bo"])
    as Hwrite.
  cbv zeta in Hwrite. destruct Hwrite as (_ & _ & Hlost & _).
  rewrite (Hlost 0 0 ["Ann"]); [reflexivity|discriminate].
Defined.

Lemma handleUpdateList_rearranges_witness :
  camps (handleUpdateList JS.codeUnitCompare camps_list ["Soccer"; "Art"]
           twoCamps) ≡ₚ ["Soccer"; "Art"]
  ∧ allKids (handleUpdateList JS.codeUnitCompare camps_list
               ["Soccer"; "Art"] twoCamps) = allKids twoCamps.
Proof.
  pose proof (handleUpdateList_rearranges JS.codeUnitCompare camps_list
                ["Soccer"; "Art"] twoCamps) as Hupdate.
  cbv zeta in Hupdate. destruct Hupdate as (Hperm & _ & _ & Hkids & _).
  split; [exact Hperm|exact (Hkids eq_refl)].
Defined.

Lemma camps_of_twoCamps_sorted :
  StronglySorted (notAfter JS.codeUnitCompare) (camps twoCamps).
Proof. repeat constructor; by vm_compute. Qed.

Lemma save_without_edit_witness :
  manageList JS.codeUnitCompare camps_list [] twoCamps = twoCamps.
Proof.
  destruct (save_without_edit JS.codeUnitCompare camps_list [] twoCamps)
    as [_ Hsame].
  apply Hsame. exact camps_of_twoCamps_sorted.
Defined.

Lemma add_then_remove_restores_witness :
  currentItems
    (handleRemoveItem "Abe"
       (handleAddItem JS.codeUnitCompare (mkModal ["Ann"; "Bo"] " Abe ")))
  = ["Ann"; "Bo"].
Proof.
  destruct (add_then_remove_restores JS.codeUnitCompare
              (mkModal ["Ann"; "Bo"] " Abe ")) as [Hback _].
  - repeat constructor; by vm_compute.
  - discriminate.
  - compute_done.
  - exact Hback.
Defined.

Lemma dialog_names_provenance_witness :
  "Abe" ∈ allKids artSoccer
  ∨ ("Abe" ≠ EmptyString
     ∧ ∃ text, TypeItem text ∈ [TypeItem " Abe "; AddItem]
               ∧ "Abe" = JS.trim text).
Proof.
  apply (dialog_names_provenance JS.codeUnitCompare allKids_list
           [TypeItem " Abe "; AddItem] artSoccer "Abe").
  compute_done.
Defined.

Lemma onboarding_roster_provenance_witness :
  "Bo" ≠ EmptyString
  ∧ ∃ text, TypeKid text ∈ [TypeKid " Bo"; AddKid] ∧ "Bo" = JS.trim text.
Proof.
  destruct (onboarding_roster_provenance JS.codeUnitCompare "bo@example.org"
              [TypeKid " Bo"; AddKid]) as (_ & _ & Hkids).
  apply Hkids. compute_done.
Defined.




Lemma schedule_id_shape_witness :
  newScheduleId [1; 2; 3; 4; 5; 35; 7; 8] = newScheduleId [1; 2; 3; 4; 5; 35].
Proof.
  destruct (schedule_id_shape [1; 2; 3; 4; 5; 35; 7; 8])
    as (_ & _ & Hsix & _).
  - repeat (constructor; [lia|]). constructor.
  - exact Hsix.
Defined.

Lemma grid_shows_cells_witness :
  ∃ cells cell,
    ScheduleGrid JS.codeUnitCompare artSoccer !! 1 = Some ("Soccer", cells)
    ∧ length cells = weekCount artSoccer
    ∧ cells !! 0 = Some cell
    ∧ (chips cell).*1 = get (schedule artSoccer) 1 0
    ∧ (showPlus cell = true ↔ get (schedule artSoccer) 1 0 = []).
Proof.
  destruct (grid_shows_cells JS.codeUnitCompare artSoccer) as [_ Hcell].
  apply Hcell; [reflexivity|simpl; lia].
Defined.

Lemma out_of_range_cells_invisible_witness :
  ScheduleGrid JS.codeUnitCompare
    (handleScheduleChange (mkCell (Some 5) (Some 0)) ["Bo"] artSoccer)
  = ScheduleGrid JS.codeUnitCompare artSoccer.
Proof.
  destruct (out_of_range_cells_invisible JS.codeUnitCompare artSoccer 5 0
              ["Bo"]) as [Hgrid _].
  - left. simpl. lia.
  - exact Hgrid.
Defined.

Lemma chip_colours_witness :
  "Cy" ∈ get (schedule staleCy) 0 0 ∧ "Cy" ∉ allKids staleCy.
Proof.
  destruct (chip_colours JS.codeUnitCompare staleCy 0 0 "Cy" None)
    as (Hcell & Hnone & _).
  - compute_done.
  - split; [exact Hcell|]. by apply Hnone.
Defined.

Lemma summary_entries_witness :
  "Bo" ∉ friends (mkWeek "Art" ["Ann"]).
Proof.
  destruct (summary_entries annInArt "Bo") as [_ Hentry].
  destruct (Hentry 0 (mkWeek "Art" ["Ann"])) as [Hfriends _];
    [reflexivity|exact Hfriends].
Defined.

Lemma edit_modal_view_witness :
  ∃ view,
    EditScheduleModal JS.codeUnitCompare
      (mkProps true (mkCell (Some 1) (Some 0))) artSoccer = Some view
    ∧ (("Bo", true) ∈ checkboxes view → "Bo" ∈ get (schedule artSoccer) 1 0).
Proof.
  destruct (edit_modal_view JS.codeUnitCompare artSoccer 1 0)
    as [_ (view & Hview & _ & _ & Hticks & _)].
  exists view. split; [exact Hview|].
  intros Hbox. by apply (Hticks "Bo" true Hbox).
Defined.

Lemma toggles_parity_witness :
  "Bo" ∉ submittedAttendees ["Bo"] ["Ann"; "Bo"; "Ann"].
Proof.
  intros Hin.
  pose proof (toggles_parity ["Bo"] ["Ann"; "Bo"; "Ann"] "Bo") as Hparity.
  cbv zeta in Hparity. apply Hparity in Hin.
  destruct Hin as [[_ [k Hk]]|[Hout _]].
  - change (length (filter (λ y, y = "Bo") ["Ann"; "Bo"; "Ann"])) with 1
      in Hk.
    lia.
  - apply Hout. compute_done.
Defined.

Lemma save_untouched_cell_witness :
  ScheduleGrid JS.codeUnitCompare
    (docStep JS.codeUnitCompare artSoccer (EditCell 0 0 []))
  = ScheduleGrid JS.codeUnitCompare artSoccer.
Proof.
  pose proof (save_untouched_cell JS.codeUnitCompare artSoccer 0 0) as Hsave.
  cbv zeta in Hsave. destruct Hsave as (_ & Hgrid & _).
  - compute_done.
  - exact Hgrid.
Defined.

Lemma unlisted_name_survives_edits_witness :
  "Cy" ∈ get (schedule
                (docStep JS.codeUnitCompare staleCy
                   (EditCell 0 0 ["Bo"; "Ann"; "Bo"]))) 0 0.
Proof.
  apply unlisted_name_survives_edits.
  - compute_done.
  - compute_done.
  - intros kid Hkid. repeat (apply elem_of_cons in Hkid as [->|Hkid]);
      [compute_done..|by apply elem_of_nil in Hkid].
Defined.

Lemma remove_camp_shifts_names_witness :
  camps (removeCampAt JS.codeUnitCompare 1 threeCamps) !! 1
  = camps threeCamps !! 2.
Proof.
  pose proof (remove_camp_shifts_names JS.codeUnitCompare threeCamps 1
                "Chess") as Hremove.
  cbv zeta in Hremove. destruct Hremove as (_ & _ & Hlater & _).
  - repeat constructor; by vm_compute.
  - compute_done.
  - reflexivity.
  - apply Hlater. lia.
Defined.

Lemma add_camp_shifts_names_witness :
  ∃ pre post,
    camps artSoccer = pre ++ post
    ∧ camps (addCamp JS.codeUnitCompare " Chess" artSoccer)
      = pre ++ "Chess" :: post.
Proof.
  destruct (add_camp_shifts_names JS.codeUnitCompare artSoccer " Chess")
    as (pre & post & Hold & Hnew & _).
  - repeat constructor; by vm_compute.
  - discriminate.
  - compute_done.
  - exists pre, post. split; [exact Hold|exact Hnew].
Defined.
